(** * eval-server: a shallow embedding of the sandboxed evaluation service

    The repository holds two variants of the server: [index.ts] and a second
    file (referred to below as the second file, modules [Part000] and
    [Part000Bridge]) that adds the [potatData] context, the DNS-guarded
    [Agent] and the catastrophic-error handler. Functions that are textually
    identical in both files ([add], [process], [authenticate], [parseBlob],
    the code shaping inside [eval]) are embedded once; functions that differ
    are embedded once per file, in [IndexTs] and [IndexTsBridge] for
    [index.ts] and in [Part000] and [Part000Bridge] for the second file.

    Conventions.
    - A JavaScript string is the list of its UTF-16 code units ([list N]);
      [lit] turns an ASCII literal of the source into that representation.
    - A JavaScript [number] that only ever counts (the concurrency counter,
      HTTP status codes) is a [Z].
    - Asynchronous code is split at its [await]s: the part of a function that
      runs in one turn of the event loop is one state transformer, and what
      the outside world answers in between (the isolate, the resolver, the
      remote server) is an explicit argument.
    - Library calls whose code is not part of the repository ([ip.isPrivate],
      [new URL], [JSON.stringify], ...) are the methods of the class [Host]. *)

From Stdlib Require Import ZArith NArith Ascii String List Lia Bool.
From stdpp Require Import base list gmap strings.

Set Warnings "-register-all".

Local Open Scope N_scope.
Local Open Scope list_scope.

(** ** JavaScript strings *)

Abbreviation JsString := (list N).

Fixpoint lit (s : string) : JsString :=
  match s with
  | EmptyString => []
  | String a r => N_of_ascii a :: lit r
  end.

Definition js_eqb (a b : JsString) : bool := bool_decide (a = b).

(** [s.startsWith(pat)] *)
Fixpoint starts_with (pat s : JsString) : bool :=
  match pat, s with
  | [], _ => true
  | p :: pat', c :: s' => (p =? c) && starts_with pat' s'
  | _ :: _, [] => false
  end.

(** An unanchored search for a literal pattern, as [/pat/.test(s)] does for a
    pattern without metacharacters: try every start position from the left. *)
Fixpoint includes (pat s : JsString) : bool :=
  starts_with pat s ||
  match s with
  | [] => false
  | _ :: s' => includes pat s'
  end.

(** [s.replace(pat, rep)] with a string pattern: only the first occurrence. *)
Fixpoint replace_first (pat rep s : JsString) : JsString :=
  if starts_with pat s then rep ++ drop (length pat) s
  else match s with
       | [] => []
       | c :: s' => c :: replace_first pat rep s'
       end.

(** JavaScript errors as the server inspects them: [e.constructor.name],
    [e.message], and the string form of [e.cause] when a cause is attached. *)
Record JsError := mkError {
  ctor_name : JsString;
  message : JsString;
  cause : option JsString
}.

Definition Error_ (msg : JsString) : JsError :=
  {| ctor_name := lit "Error"; message := msg; cause := None |}.

(** [String(e)] for an error object ([Error.prototype.toString]). *)
Definition Error_toString (e : JsError) : JsString :=
  match ctor_name e, message e with
  | [], m => m
  | n, [] => n
  | n, m => n ++ lit ": " ++ m
  end.

(** ** Code Shaper: the part of [eval] that builds the script text *)

Module Shaper.

Definition spaces (n : nat) : JsString := replicate n 32.
Definition nl : JsString := [10].

(** The [prelude] template literal. [indent] is the column of the template
    body (14 in the second file, 10 in [index.ts]); [msg_literal] is
    [JSON.stringify(JSON.stringify(msg))]. *)
Definition prelude (indent : nat) (msg_literal : JsString) : JsString :=
  nl ++
  spaces indent ++ lit "'use strict'; " ++ nl ++
  nl ++
  spaces indent ++ lit "function toString(value) {" ++ nl ++
  spaces (indent + 2) ++ lit "if (typeof value === 'string') return value;" ++ nl ++
  spaces (indent + 2) ++ lit "if (value instanceof Error) return value.constructor.name + ': ' + value.message;" ++ nl ++
  spaces (indent + 2) ++ lit "if (value instanceof Promise) return value.then(toString);" ++ nl ++
  spaces (indent + 2) ++ lit "if (Array.isArray(value)) return value.map(toString).join(', ');" ++ nl ++
  spaces (indent + 2) ++ lit "return JSON.stringify(value);" ++ nl ++
  spaces indent ++ lit "} " ++ nl ++
  nl ++
  spaces indent ++ lit "let msg = JSON.parse(" ++ msg_literal ++ lit ");" ++ nl ++
  spaces (indent - 2).

(** [/return|await/.test(code)] *)
Definition test_return_await (code : JsString) : bool :=
  includes (lit "return") code || includes (lit "await") code.

Definition backslash : N := 92.
Definition double_quote : N := 34.
Definition single_quote : N := 39.

(** The character class of the regular expression: backslash, double
    quote, single quote. *)
Definition in_class (c : N) : bool :=
  (c =? backslash) || (c =? double_quote) || (c =? single_quote).

(** [code.replace] with that global class and the replacement made of a
    backslash and [$&]: every match is replaced by a backslash followed
    by the matched character. *)
Fixpoint escape_quotes (code : JsString) : JsString :=
  match code with
  | [] => []
  | c :: r => if in_class c then backslash :: c :: escape_quotes r
              else c :: escape_quotes r
  end.

Definition async_form (pre code : JsString) : JsString :=
  pre ++ lit "toString((async function evaluate() { " ++ code ++ lit " })());".

Definition expression_form (pre code : JsString) : JsString :=
  pre ++ lit "toString(eval('" ++ escape_quotes code ++ lit "'))".

(** The two branches of [if (/return|await/.test(code))]. The boolean tells
    whether the guest-side [evaluate] closure is installed as well. *)
Definition shape (pre code : JsString) : bool * JsString :=
  if test_return_await code
  then (true, async_form pre code)
  else (false, expression_form pre code).

(** Reading back a single-quoted literal body: consume units up to the
    first unescaped single quote, turning backslash-unit into the unit.
    (Only the escapes [escape_quotes] produces are decoded.) *)
Fixpoint read_literal (s : JsString) : option (JsString * JsString) :=
  match s with
  | [] => None
  | c :: r =>
      if c =? single_quote then Some ([], r)
      else if c =? backslash then
        match r with
        | [] => None
        | d :: r' =>
            match read_literal r' with
            | Some (body, rest) => Some (d :: body, rest)
            | None => None
            end
        end
      else
        match read_literal r with
        | Some (body, rest) => Some (c :: body, rest)
        | None => None
        end
  end.

End Shaper.

(** ** Request Handler: [authenticate] (identical in both files) *)

Module Auth.

(** The UTF-8 bytes of a string, which is what [Buffer.alloc] writes when
    its fill value is a string. Surrogate pairs become one four-byte
    sequence, a lone surrogate becomes U+FFFD. *)
Fixpoint utf8 (s : JsString) : list N :=
  match s with
  | [] => []
  | c :: r =>
      if c <? 128 then c :: utf8 r
      else if c <? 2048 then (192 + c / 64) :: (128 + c mod 64) :: utf8 r
      else if (55296 <=? c) && (c <? 56320) then
        match r with
        | d :: r' =>
            if (56320 <=? d) && (d <? 57344) then
              let cp := 65536 + (c - 55296) * 1024 + (d - 56320) in
              (240 + cp / 262144) :: (128 + (cp / 4096) mod 64)
                :: (128 + (cp / 64) mod 64) :: (128 + cp mod 64) :: utf8 r'
            else 239 :: 191 :: 189 :: utf8 r
        | [] => [239; 191; 189]
        end
      else if (56320 <=? c) && (c <? 57344) then 239 :: 191 :: 189 :: utf8 r
      else (224 + c / 4096) :: (128 + (c / 64) mod 64) :: (128 + c mod 64) :: utf8 r
  end.

(** [Buffer.alloc(size, fill)]: without a fill value, or with the empty
    string, the buffer is zero-filled; otherwise the bytes of the string
    are written over and over until the buffer is full. *)
Definition Buffer_alloc (size : nat) (fill : option JsString) : list N :=
  match fill with
  | None => replicate size 0
  | Some s =>
      match utf8 s with
      | [] => replicate size 0
      | pat => take size (mjoin (replicate size pat))
      end
  end.

(** [crypto.timingSafeEqual] on two buffers of the same length. *)
Definition timingSafeEqual (a b : list N) : bool := bool_decide (a = b).

Record EvalResponse := {
    data : list JsString;
    statusCode : option Z;
    duration : Z;          (* in units of 0.0001 ms, the precision of toFixed(4) *)
    errors : option (list JsString)
  }.

Inductive Outcome :=
  | Next                                       (* next() *)
  | Send (status : Z) (body : EvalResponse).   (* res.status(..).send(..) *)

Definition rejection : EvalResponse :=
  {| data := []; statusCode := Some 418%Z; duration := 0%Z;
     errors := Some [lit "not today my little bish xqcL"] |}.

(** [req.headers.authorization?.replace(..)] *)
Definition provided_token (authorization : option JsString) : option JsString :=
  replace_first (lit "Bearer ") [] <$> authorization.

Definition authenticate (auth : JsString) (authorization : option JsString) : Outcome :=
  let posessed := Buffer_alloc 5 (Some auth) in
  let provided := Buffer_alloc 5 (provided_token authorization) in
  if negb (timingSafeEqual posessed provided) then Send 418%Z rejection
  else Next.

(** The reading of the specification: both sides are cut to five bytes or
    padded with zero bytes up to five. Stated here to be compared with
    [Buffer_alloc]. *)
Definition spec_buffer5 (bytes : list N) : list N :=
  take 5 (bytes ++ replicate 5 0).

End Auth.

(** ** Message objects and the context forwarded on outbound requests *)

Module Msg.

(** [req.body.msg] is parsed JSON. Objects keep their fields in order and
    are read through the first binding of a key. *)
Inductive JsValue :=
  | JUndefined
  | JNull
  | JBool (b : bool)
  | JNumber (n : Z)
  | JString (s : JsString)
  | JArray (items : list JsValue)
  | JObject (fields : list (JsString * JsValue)).

Fixpoint assoc (k : JsString) (fs : list (JsString * JsValue)) : option JsValue :=
  match fs with
  | [] => None
  | (k', v) :: r => if bool_decide (k' = k) then Some v else assoc k r
  end.

(** [v?.k]: undefined when [v] is nullish, has no such field, or is not an
    object carrying fields. *)
Definition get (k : string) (v : JsValue) : JsValue :=
  match v with
  | JObject fs => default JUndefined (assoc (lit k) fs)
  | _ => JUndefined
  end.

(** [a ?? b] *)
Definition nullish (v : JsValue) : bool :=
  match v with JUndefined | JNull => true | _ => false end.
Definition coalesce (a b : JsValue) : JsValue := if nullish a then b else a.

(** [!!v] *)
Definition truthy (v : JsValue) : bool :=
  match v with
  | JUndefined | JNull => false
  | JBool b => b
  | JNumber n => negb (n =? 0)%Z
  | JString s => negb (bool_decide (s = []))
  | JArray _ | JObject _ => true
  end.

(** [delete v.k] on an object; nothing happens on other values. *)
Definition delete_key (k : string) (v : JsValue) : JsValue :=
  match v with
  | JObject fs => JObject (filter (λ kv, kv.1 ≠ lit k) fs)
  | _ => v
  end.

(** Mutation below a field: [f] is applied to the value stored at [k]. *)
Definition within (k : string) (f : JsValue → JsValue) (v : JsValue) : JsValue :=
  match v with
  | JObject fs =>
      JObject ((λ kv, if bool_decide (kv.1 = lit k) then (kv.1, f kv.2) else kv) <$> fs)
  | _ => v
  end.

(** The four [delete] statements at the top of [eval], in source order.
    They mutate the message object itself, so everything computed later
    from [msg] sees the trimmed object. *)
Definition trim (msg : JsValue) : JsValue :=
  let m1 := within "channel" (within "data" (delete_key "command_stats")) msg in
  let m2 := within "channel" (delete_key "commands") m1 in
  let m3 := within "command" (delete_key "description") m2 in
  within "channel" (delete_key "blocks") m3.

(** [interface EvalPotatData] *)
Record EvalPotatData := {
    user : JsValue;
    channel : JsValue;
    id : JsString;
    timestamp : JsValue;
    platform : JsValue;
    isSilent : bool
  }.

End Msg.

Import Msg.

(** ** Collaborators outside the repository *)

(** [origin] and [hostname] of a parsed [URL]. *)
Record URL := { origin : JsString; hostname : JsString }.

Class Host := {
  isPrivate : JsString → bool;            (* ip.isPrivate *)
  isV4Format : JsString → bool;           (* ip.isV4Format *)
  isV6Format : JsString → bool;           (* ip.isV6Format *)
  net_isIP : JsString → bool;             (* the connector resolves names only *)
  URL_parse : JsString → option URL;      (* new URL(s); None when it throws *)
  Client_new : JsString → option JsError; (* new Client(origin): what it throws, if anything *)
  JSON_stringify : JsValue → JsString;
  JSON_parse : JsString → option JsValue; (* None when it throws *)
  ToString_number : Z → JsString
}.

Section Stringify.
Context `{Host}.

(** String conversion of a template literal hole. *)
Fixpoint ToString (v : JsValue) : JsString :=
  match v with
  | JUndefined => lit "undefined"
  | JNull => lit "null"
  | JBool true => lit "true"
  | JBool false => lit "false"
  | JNumber n => ToString_number n
  | JString s => s
  | JArray items =>
      (fix join (l : list JsValue) : JsString :=
         match l with
         | [] => []
         | [x] => if nullish x then [] else ToString x
         | x :: r => (if nullish x then [] else ToString x) ++ lit "," ++ join r
         end) items
  | JObject _ => lit "[object Object]"
  end.

(** The [potatData] literal of the second file. [now] is the value of
    [Date.now()] at that point. *)
Definition potatData (msg : JsValue) (now : Z) : EvalPotatData :=
  {| user := get "user" msg;
     channel := get "channel" msg;
     id := ToString (coalesce (get "id" msg) (JString []));
     timestamp := coalesce (get "timestamp" msg) (JNumber now);
     isSilent := truthy (get "silent" (get "command" msg));
     platform := coalesce (get "platform" msg) (JString (lit "PotatEval")) |}.

(** The object handed to [JSON.stringify] for the header. *)
Definition potatData_value (pd : EvalPotatData) : JsValue :=
  JObject [ (lit "user", user pd); (lit "channel", channel pd);
            (lit "id", JString (id pd)); (lit "timestamp", timestamp pd);
            (lit "isSilent", JBool (isSilent pd)); (lit "platform", platform pd) ].

End Stringify.

(** ** The server object *)

Module State.

(** What a promise is rejected with: [add] rejects with a plain string,
    evaluations reject with error objects. *)
Inductive Reason :=
  | ReasonString (s : JsString)
  | ReasonError (e : JsError).

Inductive PromiseState :=
  | Pending
  | Fulfilled (v : option JsString)   (* a string, or undefined *)
  | Rejected (r : Reason).

(** How an evaluation's promise settles. *)
Inductive Settlement :=
  | Resolves (v : option JsString)
  | Rejects (e : JsError).

(** [interface Waiter]; [resolve] and [reject] are the two capabilities of
    the promise that [add] created, named here by that promise. *)
Record Waiter := { code : JsString; msg : JsValue; promise : nat }.

(** The fields of [class EvalServer] that change at run time, followed by
    the run-time objects they refer to. *)
Record Server := {
    queue : list Waiter;
    processing : bool;
    concurrencyCounter : Z;
    current : option Waiter;            (* the waiter whose [eval] the loop awaits *)
    promises : gmap nat PromiseState;   (* the promises handed out by [add] *)
    pending_fetches : nat;              (* [fetchImplement] calls suspended at an await *)
    started : list Waiter               (* evaluations begun so far, oldest first *)
  }.

Definition initial : Server :=
  {| queue := []; processing := false; concurrencyCounter := 0%Z;
     current := None; promises := ∅; pending_fetches := 0%nat; started := [] |}.

Definition set_queue (q : list Waiter) (s : Server) : Server :=
  {| queue := q; processing := processing s;
     concurrencyCounter := concurrencyCounter s; current := current s;
     promises := promises s; pending_fetches := pending_fetches s;
     started := started s |}.

Definition set_processing (b : bool) (s : Server) : Server :=
  {| queue := queue s; processing := b;
     concurrencyCounter := concurrencyCounter s; current := current s;
     promises := promises s; pending_fetches := pending_fetches s;
     started := started s |}.

Definition set_counter (c : Z) (s : Server) : Server :=
  {| queue := queue s; processing := processing s;
     concurrencyCounter := c; current := current s;
     promises := promises s; pending_fetches := pending_fetches s;
     started := started s |}.

Definition set_current (w : option Waiter) (s : Server) : Server :=
  {| queue := queue s; processing := processing s;
     concurrencyCounter := concurrencyCounter s; current := w;
     promises := promises s; pending_fetches := pending_fetches s;
     started := started s |}.

Definition set_promises (m : gmap nat PromiseState) (s : Server) : Server :=
  {| queue := queue s; processing := processing s;
     concurrencyCounter := concurrencyCounter s; current := current s;
     promises := m; pending_fetches := pending_fetches s;
     started := started s |}.

Definition set_pending (n : nat) (s : Server) : Server :=
  {| queue := queue s; processing := processing s;
     concurrencyCounter := concurrencyCounter s; current := current s;
     promises := promises s; pending_fetches := n;
     started := started s |}.

Definition set_started (l : list Waiter) (s : Server) : Server :=
  {| queue := queue s; processing := processing s;
     concurrencyCounter := concurrencyCounter s; current := current s;
     promises := promises s; pending_fetches := pending_fetches s;
     started := l |}.

(** Calling [resolve] or [reject] of a promise: only a pending promise
    changes state, later calls are ignored. *)
Definition settle (p : nat) (st : PromiseState) (s : Server) : Server :=
  match promises s !! p with
  | Some Pending => set_promises (<[p := st]> (promises s)) s
  | _ => s
  end.

End State.

Import State.

(** ** Isolate Runner: [eval] *)

Module Runner.

(** What an evaluation does that the rest of the server, or the isolate,
    can observe, in the order in which it happens. *)
Inductive Event :=
  | NewIsolate (memoryLimit : Z)        (* new Isolate({ memoryLimit, .. }) *)
  | ContextEval (script : JsString)     (* context.eval(code, ..) *)
  | Dispose                             (* isolate.dispose() is called *)
  | ResetCounter                        (* this.concurrencyCounter = 0 *)
  | Resolve (v : option JsString)       (* the promise of eval is resolved *)
  | Reject (e : JsError).               (* the promise of eval is rejected *)
(* [Resolve] and [Reject] record the calls of [resolve] and [reject]; only
   the first call on a promise settles it (see [settlement]). *)

(** How the promise chain [createContext().then(..)] ends. *)
Inductive ChainOutcome :=
  | SetupRejects (e : JsError)   (* createContext, jail.set, evalClosure or Utils.inject fails *)
  | GuestRejects (e : JsError)   (* context.eval rejects: guest exception, timeout, memory limit *)
  | GuestReturns (v : option JsString)   (* the guest value: a string or undefined *)
  | GuestReturnsOther (slice_error : JsError).
      (* the guest value is neither a string nor nullish (the guest can
         replace [toString]); [slice_error] is the TypeError that calling
         [slice] on it throws *)

(** What the isolate does during one evaluation; chosen by the guest code
    and the engine, not by the server. *)
Inductive IsolateRun :=
  | ConstructorThrows (e : JsError)     (* new Isolate(..) throws *)
  | Settles (o : ChainOutcome) (dispose_throws : option JsError)
  | Catastrophic (e : JsError)          (* the engine reports a catastrophic error while the guest runs *)
  | CatastrophicThenSettles (e : JsError) (o : ChainOutcome) (dispose_throws : option JsError)
      (* as [Catastrophic], and the promise chain settles afterwards *)
  | Hangs.                              (* the promise chain has not settled *)

(** The [.catch] handler of the chain; the first two units are the
    surrogate pair of U+1F6AB. *)
Definition sentinel (e : JsError) : JsString :=
  [55357; 57003; 32] ++ ctor_name e ++ lit ": " ++ message e.

(** The string that [result] holds, if it holds one. *)
Definition chain_result (o : ChainOutcome) : option JsString :=
  match o with
  | GuestReturns v => v
  | SetupRejects e | GuestRejects e => Some (sentinel e)
  | GuestReturnsOther _ => None
  end.

(** [(result ?? null)?.slice(0, n)] *)
Definition slice (n : N) (result : option JsString) : option JsString :=
  take (N.to_nat n) <$> result.

(** The statement after the reset, [(result ?? null)?.slice(0, n)] handed
    to [resolve] (returned, in [index.ts]). On a value that is neither a
    string nor nullish the call of [slice] throws and the promise is
    rejected with that error. *)
Definition deliver (n : N) (o : ChainOutcome) : Event :=
  match o with
  | GuestReturnsOther slice_error => Reject slice_error
  | _ => Resolve (slice n (chain_result o))
  end.

(** What follows the chain once it has settled: the [.finally] callback,
    then the reset and the delivery unless [dispose] threw. *)
Definition after_chain (n : N) (o : ChainOutcome) (dispose_throws : option JsError)
    : list Event :=
  Dispose ::
  match dispose_throws with
  | Some e => [Reject e]
  | None => [ResetCounter; deliver n o]
  end.

Section Script.
Context `{Host}.

    (** The text passed to [context.eval]: prelude and shaped code. *)
Definition script (indent : nat) (code : JsString) (msg : JsValue) : JsString :=
    let msg_literal := JSON_stringify (JString (JSON_stringify (trim msg))) in
    (Shaper.shape (Shaper.prelude indent msg_literal) code).2.

Definition chain_events (indent : nat) (code : JsString) (msg : JsValue)
      (o : ChainOutcome) : list Event :=
    match o with
    | SetupRejects _ => []
    | _ => [ContextEval (script indent code msg)]
    end.
End Script.

(** The first settlement of the evaluation promise is the one that counts. *)
Fixpoint settlement (t : list Event) : option Settlement :=
  match t with
  | [] => None
  | Resolve v :: _ => Some (Resolves v)
  | Reject e :: _ => Some (Rejects e)
  | _ :: r => settlement r
  end.

Definition is_reset (e : Event) : bool :=
  match e with ResetCounter => true | _ => false end.

Definition is_dispose (e : Event) : bool :=
  match e with Dispose => true | _ => false end.

Definition is_delivery (e : Event) : bool :=
  match e with Resolve _ | Reject _ => true | _ => false end.

Definition creates_isolate (t : list Event) : bool :=
  existsb (λ e, match e with NewIsolate _ => true | _ => false end) t.

(** [isolate.dispose()] has been called by the time the promise first
    settles. *)
Fixpoint disposed_before_delivery (t : list Event) : bool :=
  match t with
  | [] => false
  | e :: r =>
      if is_dispose e then existsb is_delivery r
      else if is_delivery e then false
      else disposed_before_delivery r
  end.

(** The success reply of the route handler: [data: [String(result)]]. *)
Definition String_ (result : option JsString) : JsString :=
  default (lit "undefined") result.

Definition success_envelope (result : option JsString) (duration : Z) : Auth.EvalResponse :=
  {| Auth.data := [String_ result]; Auth.statusCode := Some 200%Z;
     Auth.duration := duration; Auth.errors := None |}.

End Runner.

Import Runner.

(** [eval] of [index.ts]. *)
Module IndexTs.
Section Eval.
Context `{Host}.

Definition eval (run : IsolateRun) (code : JsString) (msg : JsValue) : list Event :=
  match run with
  | ConstructorThrows e => [Reject e]
  | Settles o dispose_throws =>
      NewIsolate 32 :: chain_events 10 code msg o ++
      Dispose ::
      match dispose_throws with
      | Some e => [Reject e]
      | None => [ResetCounter; deliver 10000 o]
      end
  | Catastrophic e =>
      (* no handler is installed: nothing settles the promise *)
      [NewIsolate 32; ContextEval (script 10 code msg)]
  | CatastrophicThenSettles e o dispose_throws =>
      (* no handler is installed: the chain is all there is *)
      NewIsolate 32 :: chain_events 10 code msg o ++ after_chain 10000 o dispose_throws
  | Hangs =>
      [NewIsolate 32; ContextEval (script 10 code msg)]
  end.

End Eval.
End IndexTs.

(** [eval] of the second file. *)
Module Part000.
Section Eval.
Context `{Host}.

Definition eval (run : IsolateRun) (code : JsString) (msg : JsValue) : list Event :=
  match run with
  | ConstructorThrows e => [Reject e]
  | Settles o dispose_throws =>
      NewIsolate 8 :: chain_events 14 code msg o ++
      Dispose ::
      match dispose_throws with
      | Some e => [Reject e]
      | None => [ResetCounter; deliver 3000 o]
      end
  | Catastrophic e =>
      (* onCatastrophicError: (e) => { reject(e); } *)
      [NewIsolate 8; ContextEval (script 14 code msg); Reject e]
  | CatastrophicThenSettles e o dispose_throws =>
      (* the handler rejects; the chain goes on and settles later, and what
         follows it runs on the promise that is already rejected *)
      NewIsolate 8 :: chain_events 14 code msg o ++
      Reject e :: after_chain 3000 o dispose_throws
  | Hangs =>
      [NewIsolate 8; ContextEval (script 14 code msg)]
  end.

(** The context bound into the fetch bridge for this evaluation; it is
    read from [msg] after the [delete] statements. *)
Definition eval_potatData (msg : JsValue) (now : Z) : EvalPotatData :=
  potatData (trim msg) now.

End Eval.
End Part000.

(** ** Admission Queue: [add] and [process] (identical in both files) *)

Module Queue.
Section Queue.

(** The trace of [this.eval(code, msg)] for a waiter: either file's [eval]
    applied to what the isolate does for that waiter. *)
Variable evaluate : Waiter → list Event.

(** One turn of the [while] loop of [process], from the loop test up to
    the [await]: either the queue is empty and the loop is left, or the
    head is shifted off and its evaluation begins. *)
Definition process_loop (s : Server) : Server :=
  match queue s with
  | [] => set_processing false s
  | next :: rest =>
      set_started (started s ++ [next]) (set_current (Some next) (set_queue rest s))
  end.

Definition process (s : Server) : Server :=
  if processing s then s
  else process_loop (set_processing true s).

(** The body of [add]: [new Promise(..)], whose executor runs at once. The
    number returned names the promise constructed here, the one the waiter
    resolves or rejects. *)
Definition add (code : JsString) (msg : JsValue) (s : Server) : Server * nat :=
  let p := fresh (dom (promises s)) in
  let s0 := set_promises (<[p := Pending]> (promises s)) s in
  let s1 := if (20 <? length (queue s0))%nat
            then settle p (Rejected (ReasonString (lit "Queue is full"))) s0
            else s0 in
  let s2 := set_queue (queue s1 ++ [ {| code := code; msg := msg; promise := p |} ]) s1 in
  (process s2, p).

(** [add] is declared [async], so what its caller gets is a second promise:
    pending when [add] returns, it follows the promise constructed in the
    body ([inner]) and takes its state in a microtask once that promise is
    settled. *)
Record Returned := { inner : nat; state : PromiseState }.

Definition add_async (code : JsString) (msg : JsValue) (s : Server) : Server * Returned :=
  let '(s', p) := add code msg s in
  (s', {| inner := p; state := Pending |}).

(** The microtasks that run at the end of the current turn, before any
    other callback (a finished evaluation, another request): a returned
    promise that is still pending takes the state of the promise it
    follows, if that one is settled. *)
Definition microtasks (s : Server) (r : Returned) : Returned :=
  match state r with
  | Pending => {| inner := inner r; state := default Pending (promises s !! inner r) |}
  | _ => r
  end.

(** The effect of the evaluation on the server object. *)
Definition apply_trace (t : list Event) (s : Server) : Server :=
  if existsb is_reset t then set_counter 0%Z s else s.

(** The awaited evaluation has run: once its promise is settled,
    [.then(resolve).catch(reject)] runs and the loop goes round. An
    evaluation whose promise never settles leaves the loop suspended. *)
Definition eval_done (s : Server) : Server :=
  match current s with
  | None => s
  | Some w =>
      let t := evaluate w in
      match settlement t with
      | None => s
      | Some r =>
          let st := match r with
                    | Resolves v => Fulfilled v
                    | Rejects e => Rejected (ReasonError e)
                    end in
          process_loop (settle (promise w) st (set_current None (apply_trace t s)))
      end
  end.

(** The consumer loop run until it goes idle, with no further [add]. *)
Fixpoint drain (fuel : nat) (s : Server) : Server :=
  match fuel with
  | O => s
  | S n => match current s with
           | None => s
           | Some _ => drain n (eval_done s)
           end
  end.

End Queue.
End Queue.

(** ** Outbound HTTP Bridge: [fetchImplement] and its helpers *)

Module Bridge.

(** A statement either completes with a value or throws. *)
Inductive Completion (A : Type) :=
  | Return (a : A)
  | Throw (e : JsError).
Arguments Return {A} a.
Arguments Throw {A} e.

Inductive Body :=
  | Text (s : JsString)
  | Json (v : JsValue).

(** The object copied into the guest. *)
Record Copy := { body : Body; status : Z }.

(** The part of the guest's [options] that the bridge reads. *)
Record Options := { headers : option (gmap JsString JsString) }.

(** What [await fetch(..)] followed by [await res.blob()] gives. *)
Inductive FetchResult :=
  | Response (status : Z) (text : JsString)
  | Throws (e : JsError).

(** The request handed to [fetch]. *)
Record Request := {
    req_url : JsString;
    req_headers : gmap JsString JsString;
    req_redirect : option JsString
  }.

Definition user_agent : JsString :=
  lit "Sandbox Unsafe JavaScript Execution Environment - https://github.com/RyanPotat/eval-server/".

Definition too_many : Copy :=
  {| body := Text (lit "Too many requests."); status := 429 |}.

Definition timed_out : Copy :=
  {| body := Text (lit "Request timed out."); status := 408 |}.

Definition TypeError (m : JsString) : JsError :=
  {| ctor_name := lit "TypeError"; message := m; cause := None |}.

(** [config.maxFetchConcurrency ?? 5] *)
Definition maxConcurrency (maxFetchConcurrency : option Z) : Z :=
  default 5%Z maxFetchConcurrency.

(** [this.concurrencyCounter++] and the [finally] block. *)
Definition increment (s : Server) : Server :=
  set_counter (concurrencyCounter s + 1) s.
Definition decrement (s : Server) : Server :=
  set_counter (concurrencyCounter s - 1) s.

(** A call suspends at the [await] and is resumed later. *)
Definition suspend (s : Server) : Server :=
  set_pending (S (pending_fetches s)) s.
Definition resume (s : Server) : Server :=
  set_pending (pred (pending_fetches s)) s.

(** Answers of [dns.lookup]. *)
Record LookupAddress := { address : JsString; family : Z }.

Inductive Addr :=
  | Single (a : JsString)
  | Many (l : list LookupAddress).

Inductive LookupAnswer :=
  | LookupError (e : JsError)
  | LookupFound (addr : Addr) (fam : option Z).

Section Common.
Context `{Host}.

Definition parseBlob (text : JsString) : Body :=
    match JSON_parse text with
    | Some v => Json v
    | None => Text text
    end.

End Common.

End Bridge.

Import Bridge.

Module IndexTsBridge.
Section Bridge.
Context `{Host}.

(** The [catch] block of [fetchImplement] in [index.ts]. *)
Definition catch_handler (e : JsError) : Completion Copy :=
  if bool_decide (ctor_name e = lit "DOMException") then Return timed_out
  else Return {| body := Text (lit "Reqest failed - " ++ ctor_name e ++ lit ": "
                                 ++ default (message e) (cause e));
                 status := 400 |}.

Definition fetch_headers (options : option Options) : gmap JsString JsString :=
  <[lit "User-Agent" := user_agent]> (default ∅ (options ≫= headers)).

(** The constructor of [EvalDispatcher]: [new URL(url).origin], then
    [new Client(parsedURL)]. Either may throw. *)
Definition EvalDispatcher_new (url : JsString) : Completion unit :=
  match URL_parse url with
  | None => Throw (TypeError (lit "Invalid URL"))
  | Some u =>
      match Client_new (origin u) with
      | Some e => Throw e
      | None => Return tt
      end
  end.

(** [fetchImplement] up to its first [await]. The dispatcher is built
    inside the [try], while the argument of [fetch] is evaluated. *)
Definition fetchImplement_begin (max : Z) (url : JsString)
    (options : option Options) (s : Server) : Server * (Completion Copy + Request) :=
  let s1 := increment s in
  if (max <? concurrencyCounter s1)%Z then (decrement s1, inl (Return too_many))
  else match EvalDispatcher_new url with
       | Throw e => (decrement s1, inl (catch_handler e))
       | Return _ =>
           (suspend s1,
            inr {| req_url := url; req_headers := fetch_headers options;
                   req_redirect := Some (lit "error") |})
       end.

(** [fetchImplement] from the [await] to its return. *)
Definition fetchImplement_end (r : FetchResult) (s : Server) : Server * Completion Copy :=
  let c := match r with
           | Response st text => Return {| body := parseBlob text; status := st |}
           | Throws e => catch_handler e
           end in
  (resume (decrement s), c).

(** What [EvalDispatcher.dispatch] does, in temporal order. *)
Inductive DispatchEvent :=
  | DnsLookupCall (hostname : JsString)     (* dns.lookup(hostname, { all: true }, cb) *)
  | ClientDispatch (origin : JsString)      (* this.dispatcher.dispatch(options, handler) *)
  | HandlerOnError (e : JsError)            (* handler.onError(..) *)
  | UncaughtThrow (e : JsError).            (* throw err inside the callback *)

(** The [for] loop of the callback: it stops at the first private address. *)
Fixpoint callback_loop (addresses : list LookupAddress) : list DispatchEvent :=
  match addresses with
  | [] => []
  | a :: r =>
      if isPrivate (address a)
      then [HandlerOnError (Error_ (lit "Access to " ++ address a ++ lit " is disallowed"))]
      else callback_loop r
  end.

Definition lookup_callback (answer : JsError + list LookupAddress) : list DispatchEvent :=
  match answer with
  | inl err => [HandlerOnError err; UncaughtThrow err]
  | inr addresses => callback_loop addresses
  end.

(** [dispatch]: the lookup is started, the request is passed on to the
    client in the same turn, and [dispatch] returns [true]; the callback of
    the lookup runs in a later turn. *)
Definition dispatch (options_origin : JsString) (answer : JsError + list LookupAddress)
    : Completion (list DispatchEvent) :=
  match URL_parse options_origin with
  | None => Throw (TypeError (lit "Invalid URL"))
  | Some u =>
      Return ([DnsLookupCall (hostname u); ClientDispatch options_origin]
                ++ lookup_callback answer)
  end.

(** The error thrown out of the callback of the lookup, if there is one.
    The callback is run by the event loop, above every [try] of the
    program, and no handler for uncaught exceptions is installed: the
    process ends. *)
Fixpoint uncaught (events : list DispatchEvent) : option JsError :=
  match events with
  | [] => None
  | UncaughtThrow e :: _ => Some e
  | _ :: r => uncaught r
  end.

(** How one call of [fetchImplement] ends: with the object returned to the
    guest, or with the end of the process; in the latter case [answered]
    holds what the call had returned before that, if it had returned. *)
Inductive CallEnd :=
  | Answered (s : Server) (c : Completion Copy)
  | ProcessExits (e : JsError) (answered : option (Server * Completion Copy)).

(** An exception thrown by [dispatch] itself is thrown inside [fetch],
    which rejects with a [TypeError] that carries it as its cause. *)
Definition dispatch_failed (e : JsError) : JsError :=
  {| ctor_name := lit "TypeError"; message := lit "fetch failed";
     cause := Some (Error_toString e) |}.

(** One whole call of [fetchImplement], with nothing else interleaved.
    [answer] is what [dns.lookup] passes to the callback installed by
    [dispatch]; [r] is what the [await] gives once the client has settled
    the request; [client_first] tells whether the client settles it, and
    the call returns, before the callback of the lookup runs. The two
    inputs [answer] and [r] are not tied to each other here: an error
    reported through [handler.onError] is one of the ways [r] comes to be
    a rejection. *)
Definition fetchImplement (max : Z) (url : JsString) (options : option Options)
    (answer : JsError + list LookupAddress) (r : FetchResult) (client_first : bool)
    (s : Server) : CallEnd :=
  match fetchImplement_begin max url options s with
  | (s1, inl c) => Answered s1 c
  | (s1, inr req) =>
      let options_origin := match URL_parse url with
                            | Some u => origin u
                            | None => []
                            end in
      match dispatch options_origin answer with
      | Throw e =>
          let '(s2, c) := fetchImplement_end (Throws (dispatch_failed e)) s1 in
          Answered s2 c
      | Return events =>
          let '(s2, c) := fetchImplement_end r s1 in
          match uncaught events with
          | None => Answered s2 c
          | Some e => ProcessExits e (if client_first then Some (s2, c) else None)
          end
      end
  end.

End Bridge.
End IndexTsBridge.

Module Part000Bridge.
Section Bridge.
Context `{Host}.

(** The [catch] block of [fetchImplement] in the second file. *)
Definition catch_handler (e : JsError) : Completion Copy :=
  if bool_decide (ctor_name e = lit "DOMException") then Return timed_out
  else Return {| body := Text (lit "Request failed - " ++ ctor_name e ++ lit ": "
                                 ++ default (message e) (cause e));
                 status := 400 |}.

Definition fetch_headers (pd : EvalPotatData) (options : option Options)
    : gmap JsString JsString :=
  <[lit "x-potat-data" := JSON_stringify (potatData_value pd)]>
    (<[lit "User-Agent" := user_agent]> (default ∅ (options ≫= headers))).

(** [fetchImplement] up to its first [await]. *)
Definition fetchImplement_begin (max : Z) (pd : EvalPotatData) (url : JsString)
    (options : option Options) (s : Server) : Server * (Completion Copy + Request) :=
  let s1 := increment s in
  if (max <? concurrencyCounter s1)%Z then (decrement s1, inl (Return too_many))
  else (suspend s1,
        inr {| req_url := url; req_headers := fetch_headers pd options;
               req_redirect := None |}).

(** [fetchImplement] from the [await] to its return. *)
Definition fetchImplement_end (r : FetchResult) (s : Server) : Server * Completion Copy :=
  let c := match r with
           | Response st text => Return {| body := parseBlob text; status := st |}
           | Throws e => catch_handler e
           end in
  (resume (decrement s), c).

Definition throwIfPrivateIP (i : JsString) : Completion unit :=
  if isPrivate i
  then Throw (Error_ (lit "Access to " ++ i ++ lit " is disallowed"))
  else Return tt.

(** The [for] loop of [dnsLookup], inside its [try]. *)
Fixpoint check_addresses (addresses : list (JsString + LookupAddress)) : Completion unit :=
  match addresses with
  | [] => Return tt
  | lookupAddress :: r =>
      let value := match lookupAddress with
                   | inl str => str
                   | inr la => address la
                   end in
      match throwIfPrivateIP value with
      | Throw e => Throw e
      | Return _ => check_addresses r
      end
  end.

(** [dnsLookup]: from the answer of [dns.lookup] to what is passed to [cb]. *)
Definition dnsLookup (answer : LookupAnswer) : LookupAnswer :=
  match answer with
  | LookupError err => LookupError err
  | LookupFound addr fam =>
      let addresses := match addr with
                       | Many l => inr <$> l
                       | Single a => [inl a]
                       end in
      match check_addresses addresses with
      | Throw e => LookupError e
      | Return _ => LookupFound addr fam
      end
  end.

(** [dispatcherFactory], up to the construction of the pool. *)
Definition dispatcherFactory (origin_ : JsString) : Completion unit :=
  match URL_parse origin_ with
  | None => Throw (TypeError (lit "Invalid URL"))
  | Some url =>
      if isV4Format (hostname url) || isV6Format (hostname url)
      then throwIfPrivateIP (hostname url)
      else Return tt
  end.

(** *** The HTTP client around the two hooks

    The client library is not part of the repository. Its use of the hooks
    is modelled as its documentation describes it: the agent obtains the
    dispatcher of an origin from [factory]; the connector of that
    dispatcher resolves a host name through [connect.lookup] and opens a
    socket only once the lookup has called back with an address; a
    failure of either step rejects [fetch] with a [TypeError] whose cause
    is the original error; the abort signal rejects it with a
    [DOMException]. The model covers requests to [http] and [https] URLs,
    the ones that go through the dispatcher; URLs of other schemes
    ([data:], [blob:], ..) are answered by the library without it and are
    not described here. *)
Inductive NetEvent :=
  | DnsQuery (hostname : JsString)
  | Connect (hostname : JsString).

Record Network := {
    resolve : JsString → option LookupAnswer;   (* None: no answer before the signal fires *)
    exchange : Request → option FetchResult     (* None: no response before the signal fires *)
  }.

Definition aborted : JsError :=
  {| ctor_name := lit "DOMException"; message := lit "This operation was aborted";
     cause := None |}.

Definition fetch_failed (c : JsError) : JsError :=
  {| ctor_name := lit "TypeError"; message := lit "fetch failed";
     cause := Some (Error_toString c) |}.

(** [fetch] builds a request from its first argument; a text that is not a
    URL makes it reject with this error. *)
Definition failed_to_parse (url : JsString) : JsError :=
  {| ctor_name := lit "TypeError"; message := lit "Failed to parse URL from " ++ url;
     cause := Some (lit "TypeError: Invalid URL") |}.

Definition fetch (net : Network) (req : Request) : list NetEvent * FetchResult :=
  match URL_parse (req_url req) with
  | None => ([], Throws (failed_to_parse (req_url req)))
  | Some u =>
      match dispatcherFactory (origin u) with
      | Throw e => ([], Throws (fetch_failed e))
      | Return _ =>
          let after_connect := default (Throws aborted) (exchange net req) in
          if net_isIP (hostname u) then ([Connect (hostname u)], after_connect)
          else match resolve net (hostname u) with
               | None => ([DnsQuery (hostname u)], Throws aborted)
               | Some answer =>
                   match dnsLookup answer with
                   | LookupError e => ([DnsQuery (hostname u)], Throws (fetch_failed e))
                   | LookupFound _ _ =>
                       ([DnsQuery (hostname u); Connect (hostname u)], after_connect)
                   end
               end
      end
  end.

(** One whole call of [fetchImplement], with nothing else interleaved. *)
Definition fetchImplement (max : Z) (net : Network) (pd : EvalPotatData)
    (url : JsString) (options : option Options) (s : Server)
    : Server * list NetEvent * Completion Copy :=
  match fetchImplement_begin max pd url options s with
  | (s1, inl c) => (s1, [], c)
  | (s1, inr req) =>
      let '(events, r) := fetch net req in
      let '(s2, c) := fetchImplement_end r s1 in
      (s2, events, c)
  end.

End Bridge.
End Part000Bridge.

(** ** The concurrency counter over a run of the server

    The counter is touched by three things: a guest call of [fetch] entering
    [fetchImplement], a suspended call being resumed and leaving through its
    [finally] block, and an evaluation ending. Host-side calls are not tied
    to the life of the isolate: a call that is suspended when the evaluation
    ends (the guest did not await it, or the evaluation timed out first) is
    resumed afterwards all the same. *)

Module Counter.

Inductive SourceFile := index_ts | part_000.

Section Counter.
Context `{Host}.
Variable file : SourceFile.
Variable max : Z.

Definition bridge_begin (pd : EvalPotatData) (url : JsString)
    (options : option Options) (s : Server) : Server * (Completion Copy + Request) :=
  match file with
  | index_ts => IndexTsBridge.fetchImplement_begin max url options s
  | part_000 => Part000Bridge.fetchImplement_begin max pd url options s
  end.

Definition bridge_end (r : FetchResult) (s : Server) : Server * Completion Copy :=
  match file with
  | index_ts => IndexTsBridge.fetchImplement_end r s
  | part_000 => Part000Bridge.fetchImplement_end r s
  end.

Definition eval_trace (run : IsolateRun) (code : JsString) (msg : JsValue) : list Event :=
  match file with
  | index_ts => IndexTs.eval run code msg
  | part_000 => Part000.eval run code msg
  end.

Inductive Action :=
| FetchCall (pd : EvalPotatData) (url : JsString) (options : option Options)
| FetchReturn (r : FetchResult)
| EvalEnd (run : IsolateRun) (code : JsString) (msg : JsValue).

(** A suspended call can only be resumed if there is one. *)
Definition act (a : Action) (s : Server) : option Server :=
  match a with
  | FetchCall pd url options => Some (bridge_begin pd url options s).1
  | FetchReturn r =>
      match pending_fetches s with
      | O => None
      | S _ => Some (bridge_end r s).1
      end
  | EvalEnd run code msg => Some (Queue.apply_trace (eval_trace run code msg) s)
  end.

Fixpoint run_actions (acts : list Action) (s : Server) : option Server :=
  match acts with
  | [] => Some s
  | a :: r => match act a s with
              | Some s' => run_actions r s'
              | None => None
              end
  end.

Definition is_eval_end (a : Action) : bool :=
  match a with EvalEnd _ _ _ => true | _ => false end.

(** Every evaluation of the run ends with no bridge call suspended. *)
Fixpoint quiet_ends (acts : list Action) (s : Server) : Prop :=
  match acts with
  | [] => True
  | a :: r =>
      (is_eval_end a = true → pending_fetches s = 0%nat) ∧
      match act a s with
      | Some s' => quiet_ends r s'
      | None => True
      end
  end.

End Counter.
End Counter.

(** A host used to run the definitions on concrete inputs: addresses that
    start with 10. or 127. are private, every text is a URL whose origin and
    host name are the text itself, every client can be built, and no text
    parses as JSON. *)
Definition sample_host : Host :=
  {| isPrivate := λ a, starts_with (lit "10.") a || starts_with (lit "127.") a;
     isV4Format := λ a, starts_with (lit "10.") a || starts_with (lit "127.") a;
     isV6Format := λ _, false;
     net_isIP := λ a, starts_with (lit "10.") a || starts_with (lit "127.") a;
     URL_parse := λ u, Some {| origin := u; hostname := u |};
     Client_new := λ _, None;
     JSON_stringify := λ _, lit "{}";
     JSON_parse := λ _, None;
     ToString_number := λ _, lit "0" |}.

(** ** Request Handler: the request pipeline of [setupRoute] *)

Module Route.

(** One call of [res.status(..).send(..)]. *)
Definition Reply : Type := Z * Auth.EvalResponse.

(** [POST /eval] up to the [await]: [authenticate] runs first and the
    handler, which calls [add], only after [next()]. *)
Definition post_eval (auth : JsString) (authorization : option JsString)
    (code : JsString) (msg : JsValue) (s : Server) : Server * (Reply + nat) :=
  match Auth.authenticate auth authorization with
  | Auth.Send st body => (s, inl (st, body))
  | Auth.Next => let '(s', p) := Queue.add code msg s in (s', inr p)
  end.

End Route.

(** ** States the server can be in *)

Section Reachable.
Variable evaluate : Waiter → list Event.

(** The states reached from the fresh server by requests arriving and
    evaluations finishing. *)
Inductive reachable : Server → Prop :=
| reach_initial : reachable initial
| reach_add s code msg : reachable s → reachable (Queue.add code msg s).1
| reach_eval_done s : reachable s → reachable (Queue.eval_done evaluate s).

End Reachable.

(** The waiters not yet answered: the one being evaluated, then the queue. *)
Definition waiting (s : Server) : list Waiter :=
  option_list (current s) ++ queue s.

(** The state a pending promise takes from the trace of its evaluation. *)
Definition outcome (t : list Event) : PromiseState :=
  match settlement t with
  | Some (Resolves v) => Fulfilled v
  | Some (Rejects e) => Rejected (ReasonError e)
  | None => Pending
  end.

(** ** Notions used in the statements below *)

(** [Buffer_alloc] only looks at the bytes of its fill value. *)
Definition fill_bytes (size : nat) (bytes : list N) : list N :=
  match bytes with
  | [] => replicate size 0
  | pat => take size (mjoin (replicate size pat))
  end.

Definition bytes_of (fill : option JsString) : list N :=
  default [] (Auth.utf8 <$> fill).

Definition queue_full : PromiseState := Rejected (ReasonString (lit "Queue is full")).

(** [n] calls of [add] in a row, with no evaluation finishing in between. *)
Definition add_many (n : nat) (s : Server) : Server :=
  Nat.iter n (λ s, (Queue.add (lit "1 + 1") JNull s).1) s.

(** The trace splits at the call of [isolate.dispose()]: no delivery before
    it, a delivery after it. *)
Definition disposes_then_delivers (t : list Event) : Prop :=
  ∃ before after,
    t = before ++ Dispose :: after ∧
    Forall (λ e, is_delivery e = false) before ∧
    Exists (λ e, is_delivery e = true) after.

Definition caller_headers (options : option Options) : gmap JsString JsString :=
  default ∅ (options ≫= headers).

Definition failure_status (c : Completion Copy) : Prop :=
  ∃ b st, c = Return {| body := b; status := st |} ∧ (st = 400 ∨ st = 408 ∨ st = 429)%Z.

Definition answers (addr : Addr) : list JsString :=
  match addr with
  | Single a => [a]
  | Many l => address <$> l
  end.

Definition blocked_error (a : JsString) : JsError :=
  Error_ (lit "Access to " ++ a ++ lit " is disallowed").

(** What holds of the queue in every state the server can be in. *)
Definition queue_inv (s : Server) : Prop :=
  (processing s = true ↔ is_Some (current s)) ∧
  (processing s = false → queue s = []) ∧
  NoDup (promise <$> waiting s) ∧
  (∀ w, w ∈ waiting s →
        promises s !! promise w = Some Pending ∨ promises s !! promise w = Some queue_full).

(** Requests arriving one after the other, with no evaluation finishing in
    between. *)
Definition add_all (requests : list (JsString * JsValue)) (s : Server) : Server :=
  foldl (λ s r, (Queue.add r.1 r.2 s).1) s requests.

Definition request_of (w : Waiter) : JsString * JsValue := (code w, msg w).

(** An evaluation used to run the queue on concrete inputs: every guest
    returns the text 2. *)
Definition sample_evaluate (w : Waiter) : list Event :=
  @Part000.eval sample_host (Settles (GuestReturns (Some (lit "2"))) None) (code w) (msg w).

(** * Properties *)

(** ** Strings *)

Lemma starts_with_spec (pat s : JsString) :
  starts_with pat s = true ↔ ∃ rest, s = pat ++ rest.
Proof.
  revert s. induction pat as [|p pat IH]; intros s; simpl.
  - split; [intros _; by exists s | done].
  - destruct s as [|c s].
    + split; [done | intros [rest Hr]; discriminate Hr].
    + rewrite andb_true_iff, N.eqb_eq, IH. split.
      * intros [-> [rest ->]]. by exists rest.
      * intros [rest Hr]. injection Hr as -> ->. split; [done | by exists rest].
Qed.

Lemma includes_spec (pat s : JsString) :
  includes pat s = true ↔ ∃ before after, s = before ++ pat ++ after.
Proof.
  induction s as [|c s IH]; simpl.
  - rewrite orb_false_r, starts_with_spec. split.
    + intros [rest Hr]. by exists [], rest.
    + intros [before [after Hs]]. destruct before; [by exists after | discriminate Hs].
  - rewrite orb_true_iff, starts_with_spec, IH. split.
    + intros [[rest Hr] | [before [after Hs]]].
      * by exists [], rest.
      * exists (c :: before), after. by rewrite Hs.
    + intros [before [after Hs]]. destruct before as [|b before].
      * left. by exists after.
      * right. injection Hs as -> ->. by exists before, after.
Qed.

(** ** Code Shaper *)

Lemma in_class_spec (c : N) :
  Shaper.in_class c = bool_decide (c ∈ [92; 34; 39]).
Proof.
  unfold Shaper.in_class, Shaper.backslash, Shaper.double_quote, Shaper.single_quote.
  destruct (N.eqb_spec c 92) as [->|H1]; [done|].
  destruct (N.eqb_spec c 34) as [->|H2]; [done|].
  destruct (N.eqb_spec c 39) as [->|H3]; [done|].
  symmetry. apply bool_decide_eq_false. rewrite !elem_of_cons, elem_of_nil. tauto.
Qed.

Lemma escape_quotes_bind (code : JsString) :
  Shaper.escape_quotes code =
  code ≫= (λ c, if bool_decide (c ∈ [92; 34; 39]) then [92; c] else [c]).
Proof.
  induction code as [|c r IH]; [done|].
  cbn [Shaper.escape_quotes mbind list_bind]. rewrite IH, in_class_spec.
  by destruct (bool_decide (c ∈ [92; 34; 39])).
Qed.

Lemma read_literal_escape_quotes (code rest : JsString) :
  Shaper.read_literal (Shaper.escape_quotes code ++ Shaper.single_quote :: rest)
  = Some (code, rest).
Proof.
  induction code as [|c r IH]; [done|].
  cbn [Shaper.escape_quotes].
  destruct (Shaper.in_class c) eqn:Hc.
  - cbn [app Shaper.read_literal]. change (Shaper.backslash =? Shaper.single_quote) with false.
    rewrite N.eqb_refl. cbn [app]. by rewrite IH.
  - unfold Shaper.in_class in Hc.
    apply orb_false_iff in Hc as [Hc Hq]. apply orb_false_iff in Hc as [Hb _].
    cbn [app Shaper.read_literal]. by rewrite Hq, Hb, IH.
Qed.

Lemma test_return_await_spec (code : JsString) :
  Shaper.test_return_await code = true ↔
  (∃ before after, code = before ++ lit "return" ++ after) ∨
  (∃ before after, code = before ++ lit "await" ++ after).
Proof.
  unfold Shaper.test_return_await.
  by rewrite orb_true_iff, !includes_spec.
Qed.

(** The text evaluated in the isolate is the shaped script: in both files
    [eval] passes to [context.eval] the prelude followed by the form that
    [shape] picks for the code. *)
Lemma eval_runs_shaped_script `{Host} (v : option JsString)
    (dispose_throws : option JsError) (code : JsString) (msg : JsValue) :
  let msg_literal := JSON_stringify (JString (JSON_stringify (trim msg))) in
  ContextEval (Shaper.shape (Shaper.prelude 14 msg_literal) code).2
    ∈ Part000.eval (Settles (GuestReturns v) dispose_throws) code msg ∧
  ContextEval (Shaper.shape (Shaper.prelude 10 msg_literal) code).2
    ∈ IndexTs.eval (Settles (GuestReturns v) dispose_throws) code msg.
Proof.
  cbn zeta. split; cbn [Part000.eval IndexTs.eval chain_events app];
    apply elem_of_cons; right; apply elem_of_cons; by left.
Qed.

(** C9. The shaper picks the async wrapper exactly when the unparsed code
    contains the text return or the text await, and the expression form
    otherwise. The async form is the prelude followed by the wrapper around
    the code as it is; the expression form is the prelude followed by
    [toString(eval('..'))] around the code in which every backslash, double
    quote and single quote is preceded by a backslash, so that reading the
    literal back up to its closing quote gives the code again. *)
Theorem shape_async_iff_return_or_await (pre code : JsString) :
  let contains_keyword :=
    (∃ before after, code = before ++ lit "return" ++ after) ∨
    (∃ before after, code = before ++ lit "await" ++ after) in
  ((Shaper.shape pre code).1 = true ↔ contains_keyword) ∧
  (contains_keyword →
     Shaper.shape pre code =
       (true, pre ++ lit "toString((async function evaluate() { " ++ code ++ lit " })());")) ∧
  (¬ contains_keyword →
     ∃ escaped,
       Shaper.shape pre code = (false, pre ++ lit "toString(eval('" ++ escaped ++ lit "'))") ∧
       escaped = (code ≫= λ c, if bool_decide (c ∈ [92; 34; 39]) then [92; c] else [c]) ∧
       ∀ rest, Shaper.read_literal (escaped ++ lit "'" ++ rest) = Some (code, rest)).
Proof.
  intros contains_keyword. subst contains_keyword.
  rewrite <- test_return_await_spec. unfold Shaper.shape.
  destruct (Shaper.test_return_await code) eqn:Ht; cbn [fst].
  - split; [done|]. split; [done|]. intros Hn. by destruct Hn.
  - split; [done|]. split; [done|]. intros _.
    exists (Shaper.escape_quotes code). split; [done|]. split.
    + apply escape_quotes_bind.
    + intros rest. apply read_literal_escape_quotes.
Qed.

(** ** Authentication *)

Section AuthFacts.
Import Auth.

Lemma Buffer_alloc_fill_bytes size fill :
  Buffer_alloc size fill = fill_bytes size (bytes_of fill).
Proof. destruct fill as [s|]; [|done]. cbn. by destruct (utf8 s). Qed.

Lemma length_mjoin_replicate (n : nat) (pat : list N) :
  length (mjoin (replicate n pat)) = (n * length pat)%nat.
Proof.
  induction n as [|n IH]; [done|].
  change (mjoin (replicate (S n) pat)) with (pat ++ mjoin (replicate n pat)).
  rewrite length_app, IH. lia.
Qed.

Lemma lookup_mjoin_replicate (n : nat) (pat : list N) (i : nat) :
  (i < n * length pat)%nat →
  mjoin (replicate n pat) !! i = pat !! (i mod length pat)%nat.
Proof.
  revert i. induction n as [|n IH]; intros i Hi; [lia|].
  change (mjoin (replicate (S n) pat)) with (pat ++ mjoin (replicate n pat)).
  destruct (decide (i < length pat)%nat) as [Hlt|Hge].
  - rewrite lookup_app_l by done. by rewrite Nat.mod_small.
  - rewrite lookup_app_r by lia. rewrite IH by lia.
    f_equal.
    replace i with ((i - length pat) + 1 * length pat)%nat at 2 by lia.
    rewrite Nat.Div0.mod_add. done.
Qed.

Lemma length_fill_bytes size bytes : length (fill_bytes size bytes) = size.
Proof.
  destruct bytes as [|b bs]; cbn [fill_bytes].
  - apply length_replicate.
  - rewrite length_take, length_mjoin_replicate. cbn [length]. nia.
Qed.

Lemma lookup_fill_bytes size bytes i :
  (i < size)%nat →
  fill_bytes size bytes !! i =
    match bytes with
    | [] => Some 0
    | _ => bytes !! (i mod length bytes)%nat
    end.
Proof.
  intros Hi. destruct bytes as [|b bs]; cbn [fill_bytes].
  - by apply lookup_replicate_2.
  - rewrite lookup_take_lt by done.
    apply lookup_mjoin_replicate. cbn [length]. nia.
Qed.

Lemma fill_bytes_long size bytes :
  (size ≤ length bytes)%nat → fill_bytes size bytes = take size bytes.
Proof.
  intros Hlen. destruct bytes as [|b bs]; cbn [fill_bytes].
  - cbn [length] in Hlen. by replace size with 0%nat by lia.
  - destruct size as [|n]; [done|].
    change (mjoin (replicate (S n) (b :: bs)))
      with ((b :: bs) ++ mjoin (replicate n (b :: bs))).
    by rewrite take_app_le.
Qed.

Lemma fill_bytes_same_prefix bytes1 bytes2 :
  take 5 bytes1 = take 5 bytes2 → fill_bytes 5 bytes1 = fill_bytes 5 bytes2.
Proof.
  intros Heq.
  destruct (decide (5 ≤ length bytes1)%nat) as [H1|H1].
  - assert (5 ≤ length bytes2)%nat as H2.
    { apply (f_equal length) in Heq. rewrite !length_take in Heq. lia. }
    by rewrite !fill_bytes_long.
  - assert (length bytes2 = length bytes1) as H2.
    { apply (f_equal length) in Heq. rewrite !length_take in Heq. lia. }
    rewrite !take_ge in Heq by lia. by subst.
Qed.

Lemma authenticate_cases auth authorization :
  authenticate auth authorization =
    if bool_decide (fill_bytes 5 (utf8 auth) = fill_bytes 5 (bytes_of (provided_token authorization)))
    then Next else Send 418%Z rejection.
Proof.
  unfold authenticate, timingSafeEqual. rewrite !Buffer_alloc_fill_bytes.
  cbn [bytes_of fmap option_fmap option_map default].
  by destruct (bool_decide _).
Qed.

(** C5, as the code has it. Both sides are placed into buffers of exactly
    five bytes; a side shorter than five bytes is not padded with zeros but
    repeated from its start until the buffer is full (only the empty or
    absent side gives five zero bytes). The request passes exactly when the
    two buffers are equal and is answered with status 418 otherwise. Hence a
    token whose first five bytes equal the first five bytes of the secret
    always passes, and when secret and token both have at least five bytes
    every other token is rejected with 418. *)
Theorem authenticate_compares_repeated_fill (auth : JsString) (authorization : option JsString) :
  let token := provided_token authorization in
  let secret_bytes := utf8 auth in
  let token_bytes := bytes_of token in
  let posessed := Buffer_alloc 5 (Some auth) in
  let provided := Buffer_alloc 5 token in
  (length posessed = 5%nat ∧ length provided = 5%nat) ∧
  (∀ i, (i < 5)%nat →
     posessed !! i = match secret_bytes with
                     | [] => Some 0
                     | _ => secret_bytes !! (i mod length secret_bytes)%nat
                     end ∧
     provided !! i = match token_bytes with
                     | [] => Some 0
                     | _ => token_bytes !! (i mod length token_bytes)%nat
                     end) ∧
  (authenticate auth authorization = Next ↔ posessed = provided) ∧
  (authenticate auth authorization = Send 418%Z rejection ↔ posessed ≠ provided) ∧
  (take 5 token_bytes = take 5 secret_bytes → authenticate auth authorization = Next) ∧
  ((5 ≤ length secret_bytes)%nat → (5 ≤ length token_bytes)%nat →
     take 5 token_bytes ≠ take 5 secret_bytes →
     authenticate auth authorization = Send 418%Z rejection).
Proof.
  intros token secret_bytes token_bytes posessed provided.
  subst posessed provided. rewrite !Buffer_alloc_fill_bytes.
  change (bytes_of (Some auth)) with secret_bytes.
  change (bytes_of token) with token_bytes.
  rewrite authenticate_cases. fold token. fold token_bytes. fold secret_bytes.
  split; [by rewrite !length_fill_bytes|].
  split; [intros i Hi; by rewrite !lookup_fill_bytes|].
  case_bool_decide as Heq.
  - split; [done|]. split; [split; [done | intros Hne; by destruct Hne]|].
    split; [done|]. intros H1 H2 Hne. destruct Hne.
    rewrite !fill_bytes_long in Heq by done. done.
  - split; [split; [done | intros Hp; by destruct Heq]|].
    split; [done|]. split; [|done].
    intros Hpre. destruct Heq. symmetry. by apply fill_bytes_same_prefix.
Qed.

(** C5 as stated fails: with the one-byte secret a, the token aa is
    accepted although its first five bytes differ from the secret's, and
    although the zero-padded buffers of the specification differ; the buffer
    the code builds from the secret is not the zero-padded one. *)
Lemma authenticate_accepts_repetition_of_short_secret :
  authenticate (lit "a") (Some (lit "Bearer aa")) = Next ∧
  take 5 (utf8 (lit "aa")) ≠ take 5 (utf8 (lit "a")) ∧
  spec_buffer5 (utf8 (lit "aa")) ≠ spec_buffer5 (utf8 (lit "a")) ∧
  Buffer_alloc 5 (Some (lit "a")) = [97; 97; 97; 97; 97] ∧
  spec_buffer5 (utf8 (lit "a")) = [97; 0; 0; 0; 0].
Proof. by vm_compute. Qed.

End AuthFacts.

(** ** Isolate Runner *)

Section RunnerFacts.
Context `{Host}.

Lemma settlement_app_no_delivery (t1 t2 : list Event) :
  Forall (λ e, is_delivery e = false) t1 → settlement (t1 ++ t2) = settlement t2.
Proof.
  induction 1 as [|e t1 He _ IH]; [done|].
  destruct e; try discriminate He; apply IH.
Qed.

Lemma chain_events_no_delivery indent code msg o :
  Forall (λ e, is_delivery e = false) (chain_events indent code msg o).
Proof. destruct o; repeat constructor. Qed.

Lemma Part000_eval_settlement o code msg :
  (∀ e, o ≠ GuestReturnsOther e) →
  settlement (Part000.eval (Settles o None) code msg)
  = Some (Resolves (slice 3000 (chain_result o))).
Proof.
  intros Hstr. cbn [Part000.eval settlement].
  rewrite settlement_app_no_delivery by apply chain_events_no_delivery.
  destruct o; try done. by destruct (Hstr slice_error).
Qed.

Lemma IndexTs_eval_settlement o code msg :
  (∀ e, o ≠ GuestReturnsOther e) →
  settlement (IndexTs.eval (Settles o None) code msg)
  = Some (Resolves (slice 10000 (chain_result o))).
Proof.
  intros Hstr. cbn [IndexTs.eval settlement].
  rewrite settlement_app_no_delivery by apply chain_events_no_delivery.
  destruct o; try done. by destruct (Hstr slice_error).
Qed.

Lemma chain_result_string o result :
  chain_result o = Some result → ∀ e, o ≠ GuestReturnsOther e.
Proof. intros Hr e ->. discriminate Hr. Qed.

Lemma is_delivery_deliver n o : is_delivery (deliver n o) = true.
Proof. by destruct o. Qed.

(** The second file does what C2 says: a string result is cut to its first
    3000 units before it is delivered and placed in [data]. *)
Lemma Part000_eval_truncates_to_3000 (o : ChainOutcome) (code : JsString)
    (msg : JsValue) (result : JsString) (duration : Z) :
  chain_result o = Some result →
  ∃ delivered,
    settlement (Part000.eval (Settles o None) code msg) = Some (Resolves (Some delivered)) ∧
    Auth.data (success_envelope (Some delivered) duration) = [delivered] ∧
    delivered = take 3000 result ∧
    (N.of_nat (length delivered) ≤ 3000) ∧
    (3000 < N.of_nat (length result) → N.of_nat (length delivered) = 3000).
Proof.
  intros Hr. exists (take 3000 result).
  rewrite Part000_eval_settlement by by apply (chain_result_string o result).
  rewrite Hr. cbn [slice fmap option_fmap option_map].
  change (N.to_nat 3000) with 3000%nat.
  repeat split; rewrite ?length_take; lia.
Qed.

(** C2, as the code has it. An evaluation that completes with a string
    result delivers, and places in [data], the first 3000 units of that
    string in the second file and the first 10000 units in [index.ts]; a
    result strictly longer than the limit of the file is delivered with
    exactly that many units, a shorter one unchanged. *)
Theorem eval_result_truncated_to_file_limit (o : ChainOutcome) (code : JsString)
    (msg : JsValue) (result : JsString) (duration : Z) :
  chain_result o = Some result →
  (∃ delivered,
     settlement (Part000.eval (Settles o None) code msg) = Some (Resolves (Some delivered)) ∧
     Auth.data (success_envelope (Some delivered) duration) = [delivered] ∧
     delivered = take (N.to_nat 3000) result ∧
     (N.of_nat (length delivered) ≤ 3000) ∧
     (3000 < N.of_nat (length result) → N.of_nat (length delivered) = 3000) ∧
     (N.of_nat (length result) ≤ 3000 → delivered = result)) ∧
  (∃ delivered,
     settlement (IndexTs.eval (Settles o None) code msg) = Some (Resolves (Some delivered)) ∧
     Auth.data (success_envelope (Some delivered) duration) = [delivered] ∧
     delivered = take (N.to_nat 10000) result ∧
     (N.of_nat (length delivered) ≤ 10000) ∧
     (10000 < N.of_nat (length result) → N.of_nat (length delivered) = 10000) ∧
     (N.of_nat (length result) ≤ 10000 → delivered = result)).
Proof.
  intros Hr. split.
  - exists (take (N.to_nat 3000) result).
    rewrite Part000_eval_settlement by by apply (chain_result_string o result).
  rewrite Hr. cbn [slice fmap option_fmap option_map].
    repeat split; rewrite ?length_take; try lia.
    intros Hle. apply take_ge. lia.
  - exists (take (N.to_nat 10000) result).
    rewrite IndexTs_eval_settlement by by apply (chain_result_string o result).
    rewrite Hr. cbn [slice fmap option_fmap option_map].
    repeat split; rewrite ?length_take; try lia.
    intros Hle. apply take_ge. lia.
Qed.

End RunnerFacts.

Lemma eval_result_truncated_to_file_limit_witness :
  chain_result (GuestReturns (Some (lit "2"))) = Some (lit "2") ∧
  (∃ delivered,
     settlement (@Part000.eval sample_host (Settles (GuestReturns (Some (lit "2"))) None)
                   (lit "1 + 1") JNull) = Some (Resolves (Some delivered)) ∧
     delivered = lit "2").
Proof.
  split; [reflexivity|].
  destruct (@eval_result_truncated_to_file_limit sample_host
              (GuestReturns (Some (lit "2"))) (lit "1 + 1") JNull (lit "2") 0%Z eq_refl)
    as [[delivered (Hs & _ & Hd & _)] _].
  exists delivered. split; [exact Hs | exact Hd].
Defined.

(** C2 as stated fails in [index.ts]: a result of 3001 units is delivered
    whole, not cut to 3000. *)
Lemma IndexTs_eval_keeps_3001_units :
  ∃ delivered,
    settlement (@IndexTs.eval sample_host
                  (Settles (GuestReturns (Some (replicate 3001 97))) None)
                  (lit "'a'.repeat(3001)") JNull) = Some (Resolves (Some delivered)) ∧
    length delivered = 3001%nat ∧ length delivered ≠ 3000%nat.
Proof.
  exists (replicate 3001 97). split; [by vm_compute|].
  rewrite length_replicate. split; [done | lia].
Qed.

Section DisposeFacts.
Context `{Host}.

Lemma disposes_then_delivers_check (t : list Event) :
  disposes_then_delivers t → disposed_before_delivery t = true.
Proof.
  intros (before & after & -> & Hb & Ha).
  induction Hb as [|e before He _ IH]; cbn.
  - apply existsb_exists. apply Exists_exists in Ha as (e & Hin & He).
    exists e. split; [by apply list_elem_of_In | done].
  - destruct e; try discriminate He; try apply IH.
    apply existsb_exists. apply Exists_exists in Ha as (e & Hin & He').
    exists e. split; [|done].
    apply list_elem_of_In, elem_of_app. right. by right.
Qed.

(** C8, as the code has it. On every exit path that runs through the
    promise chain of the evaluation (the guest returns, the guest fails or
    times out, the host-side setup fails, and also when [dispose] itself
    throws), in both files, an isolate is created, [isolate.dispose()] is
    called, and only after that call is the result or failure delivered.
    When the constructor of the isolate throws there is no isolate. *)
Theorem eval_disposes_before_delivery_when_chain_settles
    (o : ChainOutcome) (dispose_throws : option JsError) (e : JsError)
    (code : JsString) (msg : JsValue) :
  (creates_isolate (Part000.eval (Settles o dispose_throws) code msg) = true ∧
   disposes_then_delivers (Part000.eval (Settles o dispose_throws) code msg) ∧
   disposed_before_delivery (Part000.eval (Settles o dispose_throws) code msg) = true) ∧
  (creates_isolate (IndexTs.eval (Settles o dispose_throws) code msg) = true ∧
   disposes_then_delivers (IndexTs.eval (Settles o dispose_throws) code msg) ∧
   disposed_before_delivery (IndexTs.eval (Settles o dispose_throws) code msg) = true) ∧
  creates_isolate (Part000.eval (ConstructorThrows e) code msg) = false ∧
  creates_isolate (IndexTs.eval (ConstructorThrows e) code msg) = false.
Proof.
  assert (∀ limit memory indent,
    disposes_then_delivers
      (NewIsolate memory :: chain_events indent code msg o ++
       Dispose :: match dispose_throws with
                  | Some e' => [Reject e']
                  | None => [ResetCounter; deliver limit o]
                  end)) as Hsplit.
  { intros limit memory indent.
    exists (NewIsolate memory :: chain_events indent code msg o).
    eexists. split; [reflexivity|]. split.
    - constructor; [done | apply chain_events_no_delivery].
    - destruct dispose_throws; [by left | right; left; apply is_delivery_deliver]. }
  repeat split; try done.
  - apply Hsplit.
  - apply disposes_then_delivers_check, Hsplit.
  - apply Hsplit.
  - apply disposes_then_delivers_check, Hsplit.
Qed.

End DisposeFacts.

(** C8 as stated fails on the catastrophic path of the second file: the
    handler rejects the promise of the evaluation at once, the isolate has
    been created, and no call of [dispose] precedes the delivery. *)
Lemma Part000_eval_catastrophic_rejects_without_dispose :
  let oom := {| ctor_name := lit "Error"; message := lit "out of memory"; cause := None |} in
  let t := @Part000.eval sample_host (Catastrophic oom) (lit "for(;;) a.push(a)") JNull in
  creates_isolate t = true ∧
  settlement t = Some (Rejects oom) ∧
  disposed_before_delivery t = false ∧
  Dispose ∉ t.
Proof.
  cbn zeta. split; [reflexivity|]. split; [reflexivity|]. split; [reflexivity|].
  cbn [Part000.eval]. rewrite !elem_of_cons, elem_of_nil.
  intros [Hd | [Hd | [Hd | []]]]; discriminate Hd.
Qed.

(** ** Admission Queue *)

Section QueueFacts.
Import Queue.

Lemma queue_settle p st s : queue (settle p st s) = queue s.
Proof. unfold settle. by repeat case_match. Qed.

Lemma current_settle p st s : current (settle p st s) = current s.
Proof. unfold settle. by repeat case_match. Qed.

Lemma processing_settle p st s : processing (settle p st s) = processing s.
Proof. unfold settle. by repeat case_match. Qed.

Lemma started_settle p st s : started (settle p st s) = started s.
Proof. unfold settle. by repeat case_match. Qed.

Lemma promises_process_loop s : promises (process_loop s) = promises s.
Proof. unfold process_loop. by destruct (queue s). Qed.

Lemma promises_process s : promises (process s) = promises s.
Proof.
  unfold process. destruct (processing s); [done|]. by rewrite promises_process_loop.
Qed.

(** A rejected promise stays rejected whatever is settled afterwards. *)
Lemma settle_keeps_rejected p q st r s :
  promises s !! p = Some (Rejected r) →
  promises (settle q st s) !! p = Some (Rejected r).
Proof.
  intros Hp. unfold settle.
  destruct (promises s !! q) as [[| |]|] eqn:Hq; try done.
  cbn. destruct (decide (q = p)) as [->|Hne]; [congruence|].
  by rewrite lookup_insert_ne.
Qed.

(** The promise returned by [add] is rejected at once exactly when the
    queue held more than 20 waiters at the call, and is pending otherwise. *)
Lemma add_promise_state code msg s :
  promises (add code msg s).1 !! (add code msg s).2 =
    Some (if (20 <? length (queue s))%nat then queue_full else Pending).
Proof.
  unfold add. cbn [fst snd]. rewrite promises_process. cbn [promises set_queue].
  set (p := fresh (dom (promises s))).
  cbn [queue set_promises].
  destruct (20 <? length (queue s))%nat.
  - unfold settle. cbn [promises set_promises]. rewrite lookup_insert_eq.
    cbn [promises set_promises]. by rewrite lookup_insert_eq.
  - cbn [promises set_promises]. by rewrite lookup_insert_eq.
Qed.

(** Whether or not the rejection fired, the waiter is appended; a busy
    server keeps the queue as it is otherwise. *)
Lemma add_queue_busy code msg s :
  processing s = true →
  queue (add code msg s).1 =
    queue s ++ [ {| code := code; msg := msg; promise := (add code msg s).2 |} ].
Proof.
  intros Hbusy. unfold add. cbn [fst snd].
  set (p := fresh (dom (promises s))).
  unfold process.
  cbn [processing set_queue]. 
  destruct (20 <? length (queue (set_promises _ s)))%nat;
    rewrite ?processing_settle; cbn [processing set_promises]; rewrite Hbusy;
    cbn [queue set_queue]; rewrite ?queue_settle; done.
Qed.

Lemma add_async_unfold code msg s :
  add_async code msg s =
    ((add code msg s).1, {| inner := (add code msg s).2; state := Pending |}).
Proof. unfold add_async. by destruct (add code msg s). Qed.

Lemma microtasks_after_add code msg s :
  state (microtasks (add_async code msg s).1 (add_async code msg s).2) =
    if (20 <? length (queue s))%nat then queue_full else Pending.
Proof.
  rewrite add_async_unfold. cbn [fst snd]. unfold microtasks. cbn [state inner].
  rewrite add_promise_state. by destruct (20 <? length (queue s))%nat.
Qed.

(** C3, as the code has it. A call of [add] made while the queue holds
    more than 20 waiters is rejected within the turn: the promise
    constructed in the body is rejected with the text Queue is full before
    [add] returns, and the promise that [add] returns, still pending at the
    return, is rejected with the same text by the microtasks of that turn,
    before any evaluation finishes or any other request is handled. That is
    the call made while 21 are queued. A call made while 20 or fewer are
    queued, so also the one made while exactly 20 are queued, is admitted:
    both promises are pending after the turn. *)
Theorem add_rejects_within_the_turn_only_beyond_20_queued (code : JsString)
    (msg : JsValue) (s : Server) :
  let s' := (add_async code msg s).1 in
  let returned := (add_async code msg s).2 in
  state returned = Pending ∧
  s' = (add code msg s).1 ∧
  inner returned = (add code msg s).2 ∧
  ((20 < length (queue s))%nat ↔ promises s' !! inner returned = Some queue_full) ∧
  ((20 < length (queue s))%nat ↔ state (microtasks s' returned) = queue_full) ∧
  ((length (queue s) ≤ 20)%nat ↔ promises s' !! inner returned = Some Pending) ∧
  ((length (queue s) ≤ 20)%nat ↔ state (microtasks s' returned) = Pending) ∧
  length (queue (add_many 21 initial)) = 20%nat ∧
  state (microtasks (add_async code msg (add_many 21 initial)).1
                    (add_async code msg (add_many 21 initial)).2) = Pending ∧
  length (queue (add_many 22 initial)) = 21%nat ∧
  state (microtasks (add_async code msg (add_many 22 initial)).1
                    (add_async code msg (add_many 22 initial)).2) = queue_full.
Proof.
  cbn zeta. rewrite !microtasks_after_add. rewrite add_async_unfold. cbn [fst snd state inner].
  rewrite add_promise_state.
  replace (length (queue (add_many 21 initial))) with 20%nat by by vm_compute.
  replace (length (queue (add_many 22 initial))) with 21%nat by by vm_compute.
  split; [done|]. split; [done|]. split; [done|].
  destruct (Nat.ltb_spec 20 (length (queue s)));
    repeat split; try done; try lia; intros; lia.
Qed.

(** C3 as stated fails: with one evaluation running and 20 waiters queued,
    the next request is not rejected; after the microtasks of the turn the
    promise returned by [add] is still pending, and the request has joined
    the queue as the 21st waiter. *)
Lemma add_admits_21st_while_20_queued_within_the_turn :
  let s := add_many 21 initial in
  let s' := (add_async (lit "1 + 1") JNull s).1 in
  let returned := (add_async (lit "1 + 1") JNull s).2 in
  length (queue s) = 20%nat ∧
  processing s = true ∧
  state (microtasks s' returned) = Pending ∧
  state (microtasks s' returned) ≠ queue_full ∧
  promises s' !! inner returned = Some Pending ∧
  length (queue s') = 21%nat.
Proof. cbn zeta. repeat split; by vm_compute. Qed.

End QueueFacts.

Section DrainFacts.
Import Queue.
Variable evaluate : Waiter → list Event.
Hypothesis evaluate_settles : ∀ w, is_Some (settlement (evaluate w)).

Lemma eval_done_unfold s w :
  current s = Some w →
  ∃ st, eval_done evaluate s =
        process_loop (settle (promise w) st (set_current None (apply_trace (evaluate w) s))).
Proof using evaluate_settles.
  intros Hc. unfold eval_done. rewrite Hc.
  destruct (evaluate_settles w) as [r Hr]. rewrite Hr. by eexists.
Qed.

Lemma drain_idle fuel s : current s = None → drain evaluate fuel s = s.
Proof. intros Hc. destruct fuel; cbn; by rewrite ?Hc. Qed.

(** With an evaluation under way and [q] waiting, the loop runs every
    waiter of [q] in order and then goes idle; promises that were rejected
    before stay rejected. *)
Lemma drain_runs_queue (q : list Waiter) :
  ∀ (s : Server) (fuel : nat),
    is_Some (current s) → queue s = q → (length q < fuel)%nat →
    started (drain evaluate fuel s) = started s ++ q ∧
    processing (drain evaluate fuel s) = false ∧
    current (drain evaluate fuel s) = None ∧
    queue (drain evaluate fuel s) = [] ∧
    (∀ p r, promises s !! p = Some (Rejected r) →
            promises (drain evaluate fuel s) !! p = Some (Rejected r)).
Proof using evaluate_settles.
  induction q as [|next rest IH]; intros s fuel [w Hw] Hq Hfuel.
  - destruct fuel as [|n]; [cbn in Hfuel; lia|].
    cbn [drain]. rewrite Hw.
    destruct (eval_done_unfold s w Hw) as [st ->].
    set (s1 := settle _ _ _).
    assert (queue s1 = []) as Hq1.
    { subst s1. rewrite queue_settle. unfold apply_trace.
      by destruct (existsb _ _). }
    unfold process_loop. rewrite Hq1.
    rewrite drain_idle.
    2:{ cbn. subst s1. rewrite current_settle. done. }
    cbn. subst s1. rewrite started_settle, current_settle.
    split; [|split; [done|split; [done|split]]].
    + rewrite app_nil_r. unfold apply_trace. by destruct (existsb _ _).
    + exact Hq1.
    + intros p r Hp. apply settle_keeps_rejected.
      unfold apply_trace. by destruct (existsb _ _).
  - destruct fuel as [|n]; [cbn in Hfuel; lia|].
    cbn [drain]. rewrite Hw.
    destruct (eval_done_unfold s w Hw) as [st ->].
    set (s1 := settle _ _ _).
    assert (queue s1 = next :: rest) as Hq1.
    { subst s1. rewrite queue_settle. unfold apply_trace.
      by destruct (existsb _ _). }
    assert (started s1 = started s) as Hs1.
    { subst s1. rewrite started_settle. unfold apply_trace.
      by destruct (existsb _ _). }
    assert (∀ p r, promises s !! p = Some (Rejected r) →
                   promises s1 !! p = Some (Rejected r)) as Hp1.
    { intros p r Hp. subst s1. apply settle_keeps_rejected.
      unfold apply_trace. by destruct (existsb _ _). }
    unfold process_loop. rewrite Hq1.
    set (s2 := set_started _ _).
    destruct (IH s2 n) as (Hst & Hpr & Hcu & Hqu & Hrej).
    + by eexists.
    + done.
    + cbn [length] in Hfuel. lia.
    + split; [|split; [done|split; [done|split; [done|]]]].
      * rewrite Hst. subst s2. cbn [started set_started]. rewrite Hs1.
        by rewrite <- app_assoc.
      * intros p r Hp. apply Hrej. subst s2. cbn. by apply Hp1.
Qed.


End DrainFacts.


(** ** Message context *)

Section MsgFacts.
Context `{Host}.

Lemma assoc_fmap_within k k' f fs :
  assoc k' ((λ kv : JsString * JsValue,
               if bool_decide (kv.1 = k) then (kv.1, f kv.2) else kv) <$> fs)
  = if bool_decide (k' = k) then f <$> assoc k' fs else assoc k' fs.
Proof.
  induction fs as [|[k0 v0] fs IH]; cbn [fmap list_fmap assoc fst snd].
  - by case_bool_decide.
  - destruct (decide (k0 = k)) as [->|Hne].
    + rewrite bool_decide_eq_true_2 by done. cbn [assoc].
      destruct (decide (k = k')) as [->|Hne'].
      * by rewrite !bool_decide_eq_true_2 by done.
      * rewrite (bool_decide_eq_false_2 (k = k')) by done. apply IH.
    + rewrite (bool_decide_eq_false_2 (k0 = k)) by done. cbn [assoc].
      destruct (decide (k0 = k')) as [->|Hne'].
      * rewrite (bool_decide_eq_true_2 (k' = k')) by done.
        by rewrite (bool_decide_eq_false_2 (k' = k)) by done.
      * rewrite (bool_decide_eq_false_2 (k0 = k')) by done. apply IH.
Qed.

Lemma assoc_filter_ne k k' fs :
  k' ≠ k →
  assoc k' (filter (λ kv : JsString * JsValue, kv.1 ≠ k) fs) = assoc k' fs.
Proof.
  intros Hne. induction fs as [|[k0 v0] fs IH]; [done|].
  rewrite filter_cons. cbn [fst]. destruct (decide (k0 ≠ k)) as [Hk|Hk].
  - cbn [assoc]. by rewrite IH.
  - apply dec_stable in Hk as ->. cbn [assoc].
    by rewrite (bool_decide_eq_false_2 (k = k')) by done.
Qed.

Lemma get_within_ne k k' f v :
  lit k' ≠ lit k → get k' (within k f v) = get k' v.
Proof.
  intros Hne. destruct v; try done. cbn [within get].
  by rewrite assoc_fmap_within, bool_decide_eq_false_2 by done.
Qed.

Lemma get_within_eq k f v :
  f JUndefined = JUndefined →
  get k (within k f v) = f (get k v) ∨ get k (within k f v) = JUndefined ∧ get k v = JUndefined.
Proof.
  intros Hf. destruct v; try (right; done). cbn [within get].
  rewrite assoc_fmap_within, bool_decide_eq_true_2 by done.
  destruct (assoc (lit k) fields); cbn; [by left | by right].
Qed.

Lemma get_delete_key_ne k k' v :
  lit k' ≠ lit k → get k' (delete_key k v) = get k' v.
Proof.
  intros Hne. destruct v; try done. cbn [delete_key get].
  by rewrite assoc_filter_ne.
Qed.

(** Fields other than channel and command are read from the trimmed
    message as they are in the original one. *)
Lemma get_trim_other k msg :
  lit k ≠ lit "channel" → lit k ≠ lit "command" → get k (trim msg) = get k msg.
Proof.
  intros H1 H2. unfold trim. by rewrite !get_within_ne.
Qed.

Lemma get_silent_trim msg :
  get "silent" (get "command" (trim msg)) = get "silent" (get "command" msg).
Proof.
  unfold trim. rewrite get_within_ne by discriminate.
  destruct (get_within_eq "command" (delete_key "description")
              (within "channel" (delete_key "commands")
                 (within "channel" (within "data" (delete_key "command_stats")) msg)))
    as [Heq | [Heq Hun]]; [done| |].
  - rewrite Heq, get_delete_key_ne by discriminate.
    by rewrite !get_within_ne by discriminate.
  - rewrite Heq. rewrite !get_within_ne in Hun by discriminate. by rewrite Hun.
Qed.

End MsgFacts.

(** ** Outbound requests: headers *)

Section HeaderFacts.
Context `{Host}.

(** C10, as the code has it. In both files the request handed to [fetch]
    carries the caller's headers overlaid by the fixed User-Agent. In the
    second file it carries in addition the header x-potat-data holding the
    JSON text of the context derived from [msg], whose id is the empty
    string, whose timestamp is the current time, whose platform is PotatEval
    and whose isSilent is false when the corresponding field of [msg] is
    missing or null; every other header is the caller's. In [index.ts] no
    x-potat-data header is added: apart from User-Agent the headers are the
    caller's. *)
Theorem outbound_requests_carry_fixed_headers (msg : JsValue) (now max : Z)
    (url : JsString) (options : option Options) (s : Server) :
  let pd := Part000.eval_potatData msg now in
  let sent := Part000Bridge.fetch_headers pd options in
  let sent_index := IndexTsBridge.fetch_headers options in
  (sent !! lit "User-Agent" = Some user_agent ∧
   sent !! lit "x-potat-data" = Some (JSON_stringify (potatData_value pd)) ∧
   (∀ k, k ≠ lit "User-Agent" → k ≠ lit "x-potat-data" →
         sent !! k = caller_headers options !! k)) ∧
  ((concurrencyCounter s + 1 ≤ max)%Z →
     ∃ req, (Part000Bridge.fetchImplement_begin max pd url options s).2 = inr req ∧
            req_url req = url ∧ req_headers req = sent) ∧
  (nullish (get "id" msg) = true → id pd = []) ∧
  (nullish (get "timestamp" msg) = true → timestamp pd = JNumber now) ∧
  (nullish (get "platform" msg) = true → platform pd = JString (lit "PotatEval")) ∧
  (nullish (get "silent" (get "command" msg)) = true → isSilent pd = false) ∧
  (sent_index !! lit "User-Agent" = Some user_agent ∧
   (∀ k, k ≠ lit "User-Agent" → sent_index !! k = caller_headers options !! k)) ∧
  ((concurrencyCounter s + 1 ≤ max)%Z → IndexTsBridge.EvalDispatcher_new url = Return tt →
     ∃ req, (IndexTsBridge.fetchImplement_begin max url options s).2 = inr req ∧
            req_url req = url ∧ req_headers req = sent_index).
Proof.
  intros pd sent sent_index. subst sent sent_index.
  unfold Part000Bridge.fetch_headers, IndexTsBridge.fetch_headers.
  fold (caller_headers options).
  split; [split; [|split]|].
  - rewrite lookup_insert_ne by discriminate. apply lookup_insert_eq.
  - apply lookup_insert_eq.
  - intros k H1 H2. by rewrite !lookup_insert_ne.
  - split.
    { intros Hcap. unfold Part000Bridge.fetchImplement_begin.
      cbn [increment concurrencyCounter set_counter].
      destruct (Z.ltb_spec max (concurrencyCounter s + 1)); [lia|].
      eexists. cbn [snd]. split; [reflexivity|]. by split. }
    subst pd. unfold Part000.eval_potatData, potatData.
    cbn [id timestamp platform isSilent].
    rewrite !get_trim_other by discriminate. rewrite get_silent_trim.
    split; [|split; [|split; [|split; [|split; [split|]]]]].
    + intros Hn. unfold coalesce. by rewrite Hn.
    + intros Hn. unfold coalesce. by rewrite Hn.
    + intros Hn. unfold coalesce. by rewrite Hn.
    + intros Hn. by destruct (get "silent" (get "command" msg)).
    + apply lookup_insert_eq.
    + intros k H1. by rewrite lookup_insert_ne.
    + intros Hcap Hu. unfold IndexTsBridge.fetchImplement_begin.
      cbn [increment concurrencyCounter set_counter].
      destruct (Z.ltb_spec max (concurrencyCounter s + 1)); [lia|].
      rewrite Hu. eexists. cbn [snd]. split; [reflexivity|]. by split.
Qed.

End HeaderFacts.

(** C10 as stated fails in [index.ts]: a request made without caller
    headers is handed to [fetch] with the User-Agent header only; there is
    no x-potat-data header. *)
Lemma IndexTs_request_has_no_potat_header :
  ∃ req,
    (@IndexTsBridge.fetchImplement_begin sample_host 5 (lit "http://example.test/") None
       initial).2 = inr req ∧
    req_headers req !! lit "x-potat-data" = None ∧
    req_headers req !! lit "User-Agent" = Some user_agent.
Proof.
  eexists. split; [reflexivity|]. cbn [req_headers].
  unfold IndexTsBridge.fetch_headers. cbn [mbind option_bind default].
  split.
  - rewrite lookup_insert_ne by discriminate. apply lookup_empty.
  - apply lookup_insert_eq.
Qed.

(** ** Outbound requests: failures *)

Section FailureFacts.
Context `{Host}.

Lemma Part000_catch_handler_status e : failure_status (Part000Bridge.catch_handler e).
Proof.
  unfold Part000Bridge.catch_handler, failure_status, timed_out.
  case_bool_decide; eexists _, _; (split; [reflexivity|]); auto.
Qed.

Lemma IndexTs_catch_handler_status e : failure_status (IndexTsBridge.catch_handler e).
Proof.
  unfold IndexTsBridge.catch_handler, failure_status, timed_out.
  case_bool_decide; eexists _, _; (split; [reflexivity|]); auto.
Qed.

Lemma Part000_begin_inl (max : Z) (pd : EvalPotatData) (url : JsString)
    (options : option Options) (s : Server) (c : Completion Copy) :
  (Part000Bridge.fetchImplement_begin max pd url options s).2 = inl c →
  c = Return too_many.
Proof.
  unfold Part000Bridge.fetchImplement_begin.
  destruct (_ <? _)%Z; cbn [snd]; [congruence | discriminate].
Qed.

Lemma IndexTs_begin_inl (max : Z) (url : JsString) (options : option Options)
    (s : Server) (c : Completion Copy) :
  (IndexTsBridge.fetchImplement_begin max url options s).2 = inl c →
  c = Return too_many ∨ ∃ e', c = IndexTsBridge.catch_handler e'.
Proof.
  unfold IndexTsBridge.fetchImplement_begin.
  destruct (_ <? _)%Z; cbn [snd]; [left; congruence|].
  destruct (IndexTsBridge.EvalDispatcher_new url) as [[]|e']; cbn [snd];
    [discriminate | right; exists e'; congruence].
Qed.

Lemma too_many_status : failure_status (Return too_many).
Proof. eexists _, _. split; [reflexivity|]. auto. Qed.

(** A response comes out of [fetch] only as the answer of the network. *)
Lemma Part000_fetch_response (net : Part000Bridge.Network) (req : Request)
    (st : Z) (text : JsString) :
  (Part000Bridge.fetch net req).2 = Response st text →
  Part000Bridge.exchange net req = Some (Response st text).
Proof.
  unfold Part000Bridge.fetch.
  destruct (URL_parse (req_url req)) as [u|]; [|discriminate].
  destruct (Part000Bridge.dispatcherFactory (origin u)); [|discriminate].
  assert (default (Throws Part000Bridge.aborted) (Part000Bridge.exchange net req)
            = Response st text →
          Part000Bridge.exchange net req = Some (Response st text)) as Hx.
  { destruct (Part000Bridge.exchange net req); cbn; [congruence | discriminate]. }
  destruct (net_isIP (hostname u)); cbn [snd]; [exact Hx|].
  destruct (Part000Bridge.resolve net (hostname u)) as [answer|]; [|discriminate].
  destruct (Part000Bridge.dnsLookup answer); cbn [snd]; [discriminate | exact Hx].
Qed.

(** The callback of the lookup throws on an error of the resolver and on
    nothing else. *)
Lemma uncaught_callback_loop (addresses : list LookupAddress) :
  IndexTsBridge.uncaught (IndexTsBridge.callback_loop addresses) = None.
Proof.
  induction addresses as [|a l IH]; [done|].
  cbn [IndexTsBridge.callback_loop]. by destruct (isPrivate (address a)).
Qed.

Lemma uncaught_dispatch (options_origin : JsString)
    (answer : JsError + list LookupAddress) (events : list IndexTsBridge.DispatchEvent) :
  IndexTsBridge.dispatch options_origin answer = Return events →
  IndexTsBridge.uncaught events
    = match answer with inl err => Some err | inr _ => None end.
Proof.
  unfold IndexTsBridge.dispatch.
  destruct (URL_parse options_origin) as [u|]; [|discriminate].
  intros [= <-]. cbn [app IndexTsBridge.uncaught].
  destruct answer as [err | addresses]; [done|].
  apply uncaught_callback_loop.
Qed.

(** In [index.ts] a call whose request reaches the dispatcher and whose
    lookup fails does not return to the guest through the [catch] block:
    the callback of the lookup rethrows the error of the resolver and the
    process ends. *)
Lemma IndexTs_resolver_error_ends_process (max : Z) (url : JsString)
    (options : option Options) (err : JsError) (r : FetchResult) (s s1 : Server)
    (req : Request) (u u' : URL) :
  IndexTsBridge.fetchImplement_begin max url options s = (s1, inr req) →
  URL_parse url = Some u →
  URL_parse (origin u) = Some u' →
  IndexTsBridge.fetchImplement max url options (inl err) r false s
    = IndexTsBridge.ProcessExits err None.
Proof.
  intros Hb Hu Hu'. unfold IndexTsBridge.fetchImplement.
  rewrite Hb, Hu. unfold IndexTsBridge.dispatch. rewrite Hu'.
  cbn [app IndexTsBridge.lookup_callback IndexTsBridge.uncaught].
  by destruct (IndexTsBridge.fetchImplement_end r s1).
Qed.

(** C6, as the code has it. A call of the bridge in the second file, and a
    call of the bridge in [index.ts] whose lookup in [EvalDispatcher.dispatch]
    answers with addresses, never throws into the guest: it returns a
    body-and-status object, which is either the response of the network or
    a failure object with status 400, 408 or 429. Of the failures, exceeding
    the concurrency cap gives body Too many requests. with status 429; an
    error whose constructor is DOMException (the abort by the 5000 ms
    signal) gives body Request timed out. with status 408; every other
    error gives status 400. In the second file the body of that last case
    is the text Request failed - , the constructor name of the error, a
    colon and a space, and then the cause of the error when it carries one
    and its message otherwise. *)
Theorem fetchImplement_surfaces_caught_failures_as_responses (max : Z)
    (pd : EvalPotatData) (url : JsString) (options : option Options) (s : Server)
    (r : FetchResult) (e : JsError) :
  (* whole calls: the bridge returns, it never throws *)
  ((∀ net : Part000Bridge.Network, ∃ c,
      (Part000Bridge.fetchImplement max net pd url options s).2 = Return c ∧
      (failure_status (Return c) ∨
       ∃ req st text, Part000Bridge.exchange net req = Some (Response st text) ∧
                      c = {| body := parseBlob text; status := st |})) ∧
   (∀ (addresses : list LookupAddress) (client_first : bool), ∃ s' c,
      IndexTsBridge.fetchImplement max url options (inr addresses) r client_first s
        = IndexTsBridge.Answered s' (Return c) ∧
      (failure_status (Return c) ∨
       ∃ st text, r = Response st text ∧
                  c = {| body := parseBlob text; status := st |})) ∧
   (∀ (addresses : list LookupAddress) (client_first : bool), ∃ s' c,
      IndexTsBridge.fetchImplement max url options (inr addresses) (Throws e) client_first s
        = IndexTsBridge.Answered s' (Return c) ∧
      failure_status (Return c))) ∧
  (* the two halves of a call, around its await *)
  ((∃ c, (Part000Bridge.fetchImplement_end r s).2 = Return c) ∧
   (∃ c, (IndexTsBridge.fetchImplement_end r s).2 = Return c) ∧
   (∀ c, (Part000Bridge.fetchImplement_begin max pd url options s).2 = inl c → ∃ c', c = Return c') ∧
   (∀ c, (IndexTsBridge.fetchImplement_begin max url options s).2 = inl c → ∃ c', c = Return c')) ∧
  (* every failure has one of the three statuses *)
  (failure_status (Part000Bridge.fetchImplement_end (Throws e) s).2 ∧
   failure_status (IndexTsBridge.fetchImplement_end (Throws e) s).2 ∧
   (∀ c, (Part000Bridge.fetchImplement_begin max pd url options s).2 = inl c → failure_status c) ∧
   (∀ c, (IndexTsBridge.fetchImplement_begin max url options s).2 = inl c → failure_status c)) ∧
  (* over the cap *)
  ((max < concurrencyCounter s + 1)%Z →
     (Part000Bridge.fetchImplement_begin max pd url options s).2 = inl (Return too_many) ∧
     (IndexTsBridge.fetchImplement_begin max url options s).2 = inl (Return too_many) ∧
     (∀ net, (Part000Bridge.fetchImplement max net pd url options s).2 = Return too_many) ∧
     (∀ answer client_first,
        IndexTsBridge.fetchImplement max url options answer r client_first s
          = IndexTsBridge.Answered s (Return too_many))) ∧
  too_many = {| body := Text (lit "Too many requests."); status := 429 |} ∧
  (* abort by the signal *)
  (ctor_name e = lit "DOMException" →
     (Part000Bridge.fetchImplement_end (Throws e) s).2
       = Return {| body := Text (lit "Request timed out."); status := 408 |} ∧
     (IndexTsBridge.fetchImplement_end (Throws e) s).2
       = Return {| body := Text (lit "Request timed out."); status := 408 |}) ∧
  (* any other error *)
  (ctor_name e ≠ lit "DOMException" →
     (Part000Bridge.fetchImplement_end (Throws e) s).2
       = Return {| body := Text (lit "Request failed - " ++ ctor_name e ++ lit ": "
                                   ++ match cause e with
                                      | Some c => c
                                      | None => message e
                                      end);
                   status := 400 |} ∧
     ∃ b, (IndexTsBridge.fetchImplement_end (Throws e) s).2
          = Return {| body := b; status := 400 |}).
Proof.
  pose proof (Part000_begin_inl max pd url options s) as Hb2.
  pose proof (IndexTs_begin_inl max url options s) as Hb1.
  pose proof too_many_status as Htm.
  assert (∀ (addresses : list LookupAddress) (client_first : bool) (r0 : FetchResult),
            ∃ s' c,
              IndexTsBridge.fetchImplement max url options (inr addresses) r0 client_first s
                = IndexTsBridge.Answered s' (Return c) ∧
              (failure_status (Return c) ∨
               ∃ st text, r0 = Response st text ∧
                          c = {| body := parseBlob text; status := st |})) as Hwhole.
  { intros addresses client_first r0. unfold IndexTsBridge.fetchImplement.
    destruct (IndexTsBridge.fetchImplement_begin max url options s) as [s1 [c|req]] eqn:Hb.
    - destruct (Hb1 c eq_refl) as [-> | [e' ->]].
      + eexists _, _. split; [reflexivity | by left].
      + destruct (IndexTs_catch_handler_status e') as (b & st & -> & Hst).
        eexists _, _. split; [reflexivity|]. left. by eexists _, _.
    - destruct (IndexTsBridge.dispatch _ _) as [events|e'] eqn:Hd.
      + rewrite (uncaught_dispatch _ _ _ Hd).
        cbn [IndexTsBridge.fetchImplement_end]. destruct r0 as [st text | e'].
        * eexists _, _. split; [reflexivity|]. right. by eexists _, _.
        * destruct (IndexTs_catch_handler_status e') as (b & st & -> & Hst).
          eexists _, _. split; [reflexivity|]. left. by eexists _, _.
      + cbn [IndexTsBridge.fetchImplement_end].
        destruct (IndexTs_catch_handler_status (IndexTsBridge.dispatch_failed e'))
          as (b & st & -> & Hst).
        eexists _, _. split; [reflexivity|]. left. by eexists _, _. }
  split; [split; [|split]|].
  - intros net. unfold Part000Bridge.fetchImplement.
    destruct (Part000Bridge.fetchImplement_begin max pd url options s) as [s1 [c|req]] eqn:Hb.
    + rewrite (Hb2 c eq_refl). eexists. split; [reflexivity | by left].
    + destruct (Part000Bridge.fetch net req) as [events r0] eqn:Hf.
      cbn [Part000Bridge.fetchImplement_end snd]. destruct r0 as [st text | e'].
      * eexists. split; [reflexivity|]. right. exists req, st, text.
        split; [|done]. apply Part000_fetch_response. by rewrite Hf.
      * destruct (Part000_catch_handler_status e') as (b & st & -> & Hst).
        eexists. split; [reflexivity|]. left. by eexists _, _.
  - intros addresses client_first. apply Hwhole.
  - intros addresses client_first.
    destruct (Hwhole addresses client_first (Throws e)) as (s' & c & Hc & [Hf | Hr]).
    + by exists s', c.
    + destruct Hr as (st & text & Hr & _). discriminate Hr.
  - split; [split; [|split; [|split]]|].
    + destruct r as [st text | e']; cbn [Part000Bridge.fetchImplement_end snd].
      * by eexists.
      * destruct (Part000_catch_handler_status e') as (b & st & -> & _). by eexists.
    + destruct r as [st text | e']; cbn [IndexTsBridge.fetchImplement_end snd].
      * by eexists.
      * destruct (IndexTs_catch_handler_status e') as (b & st & -> & _). by eexists.
    + intros c Hc. apply Hb2 in Hc as ->. by eexists.
    + intros c Hc. apply Hb1 in Hc as [-> | [e' ->]]; [by eexists|].
      destruct (IndexTs_catch_handler_status e') as (b & st & -> & _). by eexists.
    + split; [split; [|split; [|split]]|].
      * apply Part000_catch_handler_status.
      * apply IndexTs_catch_handler_status.
      * intros c Hc. by apply Hb2 in Hc as ->.
      * intros c Hc. apply Hb1 in Hc as [-> | [e' ->]]; [done|].
        apply IndexTs_catch_handler_status.
      * split; [|split; [done|split]].
        -- intros Hcap.
           unfold Part000Bridge.fetchImplement, IndexTsBridge.fetchImplement.
           unfold Part000Bridge.fetchImplement_begin, IndexTsBridge.fetchImplement_begin.
           cbn [increment concurrencyCounter set_counter].
           destruct (Z.ltb_spec max (concurrencyCounter s + 1)); [|lia].
           cbn [snd]. split; [done|]. split; [done|]. split; [done|].
           intros answer client_first. f_equal.
           unfold decrement, set_counter. cbn. destruct s. cbn. f_equal. lia.
        -- intros He.
           cbn [Part000Bridge.fetchImplement_end IndexTsBridge.fetchImplement_end snd].
           unfold Part000Bridge.catch_handler, IndexTsBridge.catch_handler.
           by rewrite bool_decide_eq_true_2 by done.
        -- intros He.
           cbn [Part000Bridge.fetchImplement_end IndexTsBridge.fetchImplement_end snd].
           unfold Part000Bridge.catch_handler, IndexTsBridge.catch_handler.
           rewrite bool_decide_eq_false_2 by done.
           split; [by destruct (cause e) | by eexists].
Qed.

End FailureFacts.

(** C6 as stated fails in two ways. On the body of the status-400
    response: in the second file an error that carries a cause, as the
    rejections of [fetch] do, shows the cause and not its message (and in
    [index.ts] the body starts with the misspelt text Reqest failed). On
    the answer itself: in [index.ts] a guest fetch of a host name that the
    resolver does not find is not answered at all, the callback of the
    lookup rethrows the error of the resolver outside every [try] and the
    process ends. *)
Lemma fetch_failure_shows_cause_or_ends_process :
  let blocked := Error_ (lit "Access to 10.0.0.1 is disallowed") in
  let e := Part000Bridge.fetch_failed blocked in
  let claimed (e : JsError) :=
    Return {| body := Text (lit "Request failed - " ++ ctor_name e ++ lit ": " ++ message e);
              status := 400 |} in
  let not_found := {| ctor_name := lit "Error";
                      message := lit "getaddrinfo ENOTFOUND nowhere.invalid";
                      cause := None |} in
  (@Part000Bridge.fetchImplement_end sample_host (Throws e) initial).2
    = Return {| body := Text (lit "Request failed - TypeError: Error: Access to 10.0.0.1 is disallowed");
                status := 400 |} ∧
  (@Part000Bridge.fetchImplement_end sample_host (Throws e) initial).2 ≠ claimed e ∧
  (@IndexTsBridge.fetchImplement_end sample_host (Throws blocked) initial).2
    = Return {| body := Text (lit "Reqest failed - Error: Access to 10.0.0.1 is disallowed");
                status := 400 |} ∧
  (@IndexTsBridge.fetchImplement_end sample_host (Throws blocked) initial).2 ≠ claimed blocked ∧
  @IndexTsBridge.fetchImplement sample_host 5 (lit "http://nowhere.invalid/") None
      (inl not_found) (Throws (Part000Bridge.fetch_failed not_found)) false initial
    = IndexTsBridge.ProcessExits not_found None ∧
  (∀ s c, @IndexTsBridge.fetchImplement sample_host 5 (lit "http://nowhere.invalid/") None
            (inl not_found) (Throws (Part000Bridge.fetch_failed not_found)) false initial
          ≠ IndexTsBridge.Answered s c).
Proof.
  cbn zeta. split; [by vm_compute|]. split; [by vm_compute|].
  split; [by vm_compute|]. split; [by vm_compute|].
  split; [by vm_compute|]. intros s c. by vm_compute.
Qed.

(** ** Outbound requests: the address guard *)

Section GuardFacts.
Context `{Host}.

Lemma check_addresses_private (l : list (JsString + LookupAddress)) :
  Exists (λ x, isPrivate (match x with inl str => str | inr la => address la end) = true) l →
  ∃ a, isPrivate a = true ∧ Part000Bridge.check_addresses l = Throw (blocked_error a).
Proof.
  induction l as [|x l IH]; intros Hex; [by apply Exists_nil in Hex|].
  cbn [Part000Bridge.check_addresses]. unfold Part000Bridge.throwIfPrivateIP.
  destruct (isPrivate _) eqn:Hp.
  - eexists. split; [exact Hp | reflexivity].
  - apply Exists_cons in Hex as [Hx | Hl]; [congruence|]. by apply IH.
Qed.

Lemma check_addresses_public (l : list (JsString + LookupAddress)) :
  Forall (λ x, isPrivate (match x with inl str => str | inr la => address la end) = false) l →
  Part000Bridge.check_addresses l = Return tt.
Proof.
  induction 1 as [|x l Hx _ IH]; [done|].
  cbn [Part000Bridge.check_addresses]. unfold Part000Bridge.throwIfPrivateIP.
  by rewrite Hx.
Qed.

(** [dnsLookup] calls back with an error as soon as one of the answers is
    private, and passes the answers on unchanged when none is. *)
Lemma dnsLookup_guard (addr : Addr) (fam : option Z) :
  (Exists (λ a, isPrivate a = true) (answers addr) →
     ∃ a, isPrivate a = true ∧
          Part000Bridge.dnsLookup (LookupFound addr fam) = LookupError (blocked_error a)) ∧
  (Forall (λ a, isPrivate a = false) (answers addr) →
     Part000Bridge.dnsLookup (LookupFound addr fam) = LookupFound addr fam).
Proof.
  unfold Part000Bridge.dnsLookup. split.
  - intros Hex.
    destruct (check_addresses_private
                match addr with Many l => inr <$> l | Single a => [inl a] end)
      as (a & Ha & ->); [|by exists a].
    destruct addr as [a | l]; cbn [answers] in Hex.
    + apply Exists_cons in Hex as [Ha | Hn]; [by left | by apply Exists_nil in Hn].
    + apply Exists_fmap. apply Exists_fmap in Hex.
      eapply Exists_impl; [exact Hex | done].
  - intros Hall.
    rewrite check_addresses_public; [done|].
    destruct addr as [a | l]; cbn [answers] in Hall.
    + constructor; [by apply Forall_inv in Hall | constructor].
    + apply Forall_fmap. apply Forall_fmap in Hall.
      eapply Forall_impl; [exact Hall | done].
Qed.

(** The second file does what C1 says. A call under the concurrency cap
    whose host name is resolved, with at least one private address among the
    answers, returns status 400 with the text of the refusal, no connection
    is opened, and the counter is back where it was, whatever public
    addresses the answer also holds. *)
Lemma Part000_fetch_refuses_private_answers (max : Z) (net : Part000Bridge.Network)
    (pd : EvalPotatData) (url : JsString) (options : option Options) (s : Server)
    (u : URL) (addr : Addr) (fam : option Z) :
  (concurrencyCounter s + 1 ≤ max)%Z →
  URL_parse url = Some u →
  Part000Bridge.dispatcherFactory (origin u) = Return tt →
  net_isIP (hostname u) = false →
  Part000Bridge.resolve net (hostname u) = Some (LookupFound addr fam) →
  Exists (λ a, isPrivate a = true) (answers addr) →
  ∃ a,
    isPrivate a = true ∧
    Part000Bridge.fetchImplement max net pd url options s =
      (resume (decrement (suspend (increment s))),
       [Part000Bridge.DnsQuery (hostname u)],
       Return {| body := Text (lit "Request failed - TypeError: Error: Access to "
                                 ++ a ++ lit " is disallowed");
                 status := 400 |}).
Proof.
  intros Hcap Hu Hf Hip Hres Hex.
  destruct (dnsLookup_guard addr fam) as [Hguard _].
  destruct (Hguard Hex) as (a & Ha & Hdns).
  exists a. split; [done|].
  unfold Part000Bridge.fetchImplement, Part000Bridge.fetchImplement_begin.
  cbn [increment concurrencyCounter set_counter].
  destruct (Z.ltb_spec max (concurrencyCounter s + 1)); [lia|].
  unfold Part000Bridge.fetch. cbn [req_url]. rewrite Hu, Hf, Hip, Hres, Hdns.
  cbn [Part000Bridge.fetchImplement_end]. unfold Part000Bridge.catch_handler.
  rewrite bool_decide_eq_false_2 by discriminate.
  cbn [Part000Bridge.fetch_failed ctor_name cause message default].
  reflexivity.
Qed.

(** In [index.ts] the request is passed to the client in the same turn in
    which the lookup is started, whatever the lookup will answer. *)
Lemma IndexTs_dispatch_passes_request_on (options_origin : JsString) (u : URL)
    (answer : JsError + list LookupAddress) :
  URL_parse options_origin = Some u →
  IndexTsBridge.dispatch options_origin answer =
    Return (IndexTsBridge.DnsLookupCall (hostname u)
              :: IndexTsBridge.ClientDispatch options_origin
              :: IndexTsBridge.lookup_callback answer).
Proof. intros Hu. unfold IndexTsBridge.dispatch. by rewrite Hu. Qed.

End GuardFacts.

(** C1 on [index.ts]: for a host name that resolves to a private and a
    public address, [dispatch] hands the request to the client before the
    callback of the lookup reports the private address. *)
Lemma IndexTs_dispatch_connects_before_guard_answers :
  @IndexTsBridge.dispatch sample_host (lit "http://rebind.test")
    (inr [ {| address := lit "10.0.0.1"; family := 4 |};
           {| address := lit "93.184.216.34"; family := 4 |} ])
  = Return [ IndexTsBridge.DnsLookupCall (lit "http://rebind.test");
             IndexTsBridge.ClientDispatch (lit "http://rebind.test");
             IndexTsBridge.HandlerOnError (Error_ (lit "Access to 10.0.0.1 is disallowed")) ].
Proof. reflexivity. Qed.

Lemma Part000_fetch_refuses_private_answers_witness :
  let net := {| Part000Bridge.resolve := λ _, Some (LookupFound
                   (Many [ {| address := lit "93.184.216.34"; family := 4 |};
                           {| address := lit "10.0.0.1"; family := 4 |} ]) None);
                Part000Bridge.exchange := λ _, Some (Response 200 (lit "ok")) |} in
  let pd := @potatData sample_host JNull 0 in
  ∃ a,
    @Part000Bridge.fetchImplement sample_host 5 net pd (lit "rebind.test") None initial =
      (initial, [Part000Bridge.DnsQuery (lit "rebind.test")],
       Return {| body := Text (lit "Request failed - TypeError: Error: Access to "
                                 ++ a ++ lit " is disallowed");
                 status := 400 |}).
Proof.
  intros net pd.
  destruct (@Part000_fetch_refuses_private_answers sample_host 5 net pd (lit "rebind.test")
              None initial {| origin := lit "rebind.test"; hostname := lit "rebind.test" |}
              (Many [ {| address := lit "93.184.216.34"; family := 4 |};
                      {| address := lit "10.0.0.1"; family := 4 |} ]) None)
    as (a & _ & Hcall).
  - vm_compute. discriminate.
  - reflexivity.
  - reflexivity.
  - reflexivity.
  - reflexivity.
  - right. left. reflexivity.
  - exists a. exact Hcall.
Defined.

(** ** The concurrency counter *)

Section CounterFacts.
Context `{Host}.
Variable file : Counter.SourceFile.
Variable max : Z.

Abbreviation bridge_begin := (Counter.bridge_begin file max).
Abbreviation bridge_end := (Counter.bridge_end file).
Abbreviation eval_trace := (Counter.eval_trace file).
Abbreviation act := (Counter.act file max).
Abbreviation run_actions := (Counter.run_actions file max).
Abbreviation quiet_ends := (Counter.quiet_ends file max).

(** A call either returns in the same turn (over the cap, or a malformed
    address in [index.ts]) and leaves the counter as it found it, or it
    suspends with the counter one higher. *)
Lemma bridge_begin_counter pd url options s :
  ((∃ c, (bridge_begin pd url options s).2 = inl c) ∧
   concurrencyCounter (bridge_begin pd url options s).1 = concurrencyCounter s ∧
   pending_fetches (bridge_begin pd url options s).1 = pending_fetches s) ∨
  ((∃ req, (bridge_begin pd url options s).2 = inr req) ∧
   (concurrencyCounter s + 1 ≤ max)%Z ∧
   concurrencyCounter (bridge_begin pd url options s).1 = (concurrencyCounter s + 1)%Z ∧
   pending_fetches (bridge_begin pd url options s).1 = S (pending_fetches s)).
Proof.
  unfold Counter.bridge_begin.
  destruct file;
    unfold IndexTsBridge.fetchImplement_begin, Part000Bridge.fetchImplement_begin;
    cbn [increment concurrencyCounter set_counter];
    destruct (Z.ltb_spec max (concurrencyCounter s + 1)).
  - left. cbn. split; [by eexists|]. split; [lia | done].
  - destruct (IndexTsBridge.EvalDispatcher_new url).
    + right. cbn. split; [by eexists|]. split; [lia|]. done.
    + left. cbn. split; [by eexists|]. split; [lia | done].
  - left. cbn. split; [by eexists|]. split; [lia | done].
  - right. cbn. split; [by eexists|]. split; [lia|]. done.
Qed.

Lemma bridge_end_counter r s :
  concurrencyCounter (bridge_end r s).1 = (concurrencyCounter s - 1)%Z ∧
  pending_fetches (bridge_end r s).1 = pred (pending_fetches s).
Proof. unfold Counter.bridge_end. by destruct file. Qed.

Lemma apply_trace_counter t s :
  pending_fetches (Queue.apply_trace t s) = pending_fetches s ∧
  (concurrencyCounter (Queue.apply_trace t s) = 0%Z ∨
   concurrencyCounter (Queue.apply_trace t s) = concurrencyCounter s).
Proof. unfold Queue.apply_trace. destruct (existsb _ _); cbn; auto. Qed.

Lemma eval_trace_resets o code msg s :
  concurrencyCounter (Queue.apply_trace (eval_trace (Settles o None) code msg) s) = 0%Z.
Proof.
  unfold Queue.apply_trace, Counter.eval_trace.
  destruct file; cbn [IndexTs.eval Part000.eval existsb is_reset];
    rewrite existsb_app; cbn; by rewrite orb_true_r.
Qed.

(** Without any condition the counter never exceeds the number of
    suspended calls. *)
Lemma counter_at_most_pending acts :
  ∀ s s', (concurrencyCounter s ≤ Z.of_nat (pending_fetches s))%Z →
          run_actions acts s = Some s' →
          (concurrencyCounter s' ≤ Z.of_nat (pending_fetches s'))%Z.
Proof.
  induction acts as [|a acts IH]; intros s s' Hinv Hrun; cbn in Hrun.
  - by injection Hrun as <-.
  - destruct (act a s) as [s1|] eqn:Hact; [|done].
    apply (IH s1 s'); [|done].
    destruct a as [pd url options | r | run code msg]; cbn in Hact.
    + injection Hact as <-.
      destruct (bridge_begin_counter pd url options s)
        as [(_ & -> & ->) | (_ & _ & -> & ->)]; lia.
    + destruct (pending_fetches s) as [|n] eqn:Hp; [done|]. injection Hact as <-.
      destruct (bridge_end_counter r s) as [-> ->]. rewrite Hp. cbn. lia.
    + injection Hact as <-.
      destruct (apply_trace_counter (eval_trace run code msg) s) as [-> [-> | ->]]; lia.
Qed.

(** As long as every evaluation ends with no call suspended, the counter
    is the number of suspended calls. *)
Lemma counter_is_pending acts :
  ∀ s s', concurrencyCounter s = Z.of_nat (pending_fetches s) →
          quiet_ends acts s →
          run_actions acts s = Some s' →
          concurrencyCounter s' = Z.of_nat (pending_fetches s').
Proof.
  induction acts as [|a acts IH]; intros s s' Hinv Hquiet Hrun; cbn in Hrun.
  - by injection Hrun as <-.
  - cbn in Hquiet. destruct Hquiet as [Hq Hrest].
    destruct (act a s) as [s1|] eqn:Hact; [|done].
    apply (IH s1 s'); [|done|done].
    destruct a as [pd url options | r | run code msg]; cbn in Hact.
    + injection Hact as <-.
      destruct (bridge_begin_counter pd url options s)
        as [(_ & -> & ->) | (_ & _ & -> & ->)]; lia.
    + destruct (pending_fetches s) as [|n] eqn:Hp; [done|]. injection Hact as <-.
      destruct (bridge_end_counter r s) as [-> ->]. rewrite Hp. cbn. lia.
    + injection Hact as <-. specialize (Hq eq_refl).
      destruct (apply_trace_counter (eval_trace run code msg) s) as [-> [-> | ->]]; lia.
Qed.

(** C7, as the code has it. Every call of the bridge changes the counter
    in a balanced pair: a call refused in the same turn (the 429 path
    included) leaves it as it was, and a call that suspends raises it by one
    and lowers it by one when it is resumed, whatever the result. An
    evaluation whose chain settles and whose isolate is disposed sets the
    counter to 0 when it ends. The counter never exceeds the number of
    suspended calls; it equals that number, and so is not negative, as long
    as every evaluation ends with no bridge call still suspended. *)
Theorem counter_balanced_and_nonnegative_between_quiet_ends :
  (∀ pd url options r s,
     match (bridge_begin pd url options s).2 with
     | inl _ => concurrencyCounter (bridge_begin pd url options s).1 = concurrencyCounter s
     | inr _ =>
         concurrencyCounter (bridge_begin pd url options s).1 = (concurrencyCounter s + 1)%Z ∧
         concurrencyCounter (bridge_end r (bridge_begin pd url options s).1).1
           = concurrencyCounter s
     end) ∧
  (∀ pd url options s,
     (max < concurrencyCounter s + 1)%Z →
     (bridge_begin pd url options s).2 = inl (Return too_many) ∧
     concurrencyCounter (bridge_begin pd url options s).1 = concurrencyCounter s) ∧
  (∀ o code msg s,
     concurrencyCounter (Queue.apply_trace (eval_trace (Settles o None) code msg) s) = 0%Z) ∧
  (∀ acts s',
     run_actions acts initial = Some s' →
     (concurrencyCounter s' ≤ Z.of_nat (pending_fetches s'))%Z) ∧
  (∀ acts s',
     quiet_ends acts initial →
     run_actions acts initial = Some s' →
     concurrencyCounter s' = Z.of_nat (pending_fetches s') ∧ (0 ≤ concurrencyCounter s')%Z).
Proof.
  split; [|split; [|split; [|split]]].
  - intros pd url options r s.
    destruct (bridge_begin_counter pd url options s)
      as [([c ->] & Hc & _) | ([req ->] & _ & Hc & _)]; [done|].
    split; [done|]. destruct (bridge_end_counter r (bridge_begin pd url options s).1) as [-> _].
    lia.
  - intros pd url options s Hcap.
    destruct (bridge_begin_counter pd url options s)
      as [(_ & Hc & _) | (_ & Hle & _)]; [|lia].
    split; [|done].
    unfold Counter.bridge_begin.
    destruct file;
      unfold IndexTsBridge.fetchImplement_begin, Part000Bridge.fetchImplement_begin;
      cbn [increment concurrencyCounter set_counter];
      by destruct (Z.ltb_spec max (concurrencyCounter s + 1)); [|lia].
  - apply eval_trace_resets.
  - intros acts s' Hrun. by apply (counter_at_most_pending acts initial).
  - intros acts s' Hquiet Hrun.
    assert (concurrencyCounter s' = Z.of_nat (pending_fetches s')) as Heq
      by by apply (counter_is_pending acts initial).
    split; [done | lia].
Qed.

End CounterFacts.

(** C7 as stated fails, in both files: a call of the bridge that is still
    suspended when its evaluation ends is resumed after the counter has been
    set to 0, and its [finally] block takes the counter to -1. *)
Lemma counter_negative_after_reset_with_call_in_flight :
  let pd := @potatData sample_host JNull 0 in
  let run := [ Counter.FetchCall pd (lit "http://slow.test/") None;
               Counter.EvalEnd (Settles (GuestReturns (Some (lit "1"))) None)
                 (lit "fetch('http://slow.test/'); 1") JNull;
               Counter.FetchReturn (Response 200 (lit "late")) ] in
  (∃ s', @Counter.run_actions sample_host Counter.part_000 5 run initial = Some s' ∧
         concurrencyCounter s' = (-1)%Z) ∧
  (∃ s', @Counter.run_actions sample_host Counter.index_ts 5 run initial = Some s' ∧
         concurrencyCounter s' = (-1)%Z).
Proof. cbn zeta. split; eexists; (split; [by vm_compute | reflexivity]). Qed.

(** ** The queue over a run of the server *)

Section QueueRunFacts.
Import Queue.
Variable evaluate : Waiter → list Event.

Lemma promises_add_other code msg s p' :
  p' ≠ (add code msg s).2 →
  promises (add code msg s).1 !! p' = promises s !! p'.
Proof.
  intros Hne. unfold add in *. cbn [fst snd] in *. rewrite promises_process.
  cbn [promises set_queue].
  destruct (20 <? length (queue (set_promises _ s)))%nat.
  - unfold settle. cbn [promises set_promises]. rewrite lookup_insert_eq.
    cbn [promises set_promises]. by rewrite !lookup_insert_ne.
  - cbn [promises set_promises]. by rewrite lookup_insert_ne.
Qed.

Lemma add_fresh code msg s : promises s !! (add code msg s).2 = None.
Proof.
  unfold add. cbn [snd]. apply not_elem_of_dom. apply is_fresh.
Qed.

(** The shape of the state after [add]: the loop is running, and the new
    waiter is last among those not yet answered. *)
Lemma add_shape code msg s :
  (processing s = true ↔ is_Some (current s)) →
  processing (add code msg s).1 = true ∧
  is_Some (current (add code msg s).1) ∧
  waiting (add code msg s).1 =
    waiting s ++ [ {| code := code; msg := msg; promise := (add code msg s).2 |} ] ∧
  (processing s = true → current (add code msg s).1 = current s) ∧
  started (add code msg s).1 =
    started s ++ (if processing s then [] else take 1 (waiting (add code msg s).1)).
Proof.
  intros Hiff. unfold add, waiting. cbn [fst snd].
  set (p := fresh (dom (promises s))).
  set (s1 := if (20 <? _)%nat then _ else _).
  assert (queue s1 = queue s ∧ processing s1 = processing s ∧
          current s1 = current s ∧ started s1 = started s) as (Hq & Hp & Hc & Hs).
  { subst s1. destruct (20 <? _)%nat;
      rewrite ?queue_settle, ?processing_settle, ?current_settle, ?started_settle; done. }
  unfold process. cbn [processing set_queue]. rewrite Hp.
  destruct (processing s) eqn:Hbusy.
  - cbn [processing current queue started set_queue]. rewrite Hp, Hc, Hq, Hs.
    split; [done|]. split; [by apply Hiff|].
    by rewrite app_assoc, app_nil_r.
  - assert (current s = None) as Hnone.
    { destruct (current s) eqn:Hcs; [|done].
      assert (false = true) by (apply Hiff; by eexists). done. }
    rewrite Hnone. unfold process_loop.
    cbn [queue set_queue set_processing]. rewrite Hq.
    destruct (queue s) as [|w0 q]; cbn; rewrite ?Hs; (split; [done|]);
      (split; [by eexists|]); done.
Qed.

(** The shape of the state after an evaluation has settled. *)
Lemma eval_done_shape s w r :
  current s = Some w → settlement (evaluate w) = Some r →
  waiting (eval_done evaluate s) = queue s ∧
  processing (eval_done evaluate s) = (if queue s is [] then false else processing s) ∧
  current (eval_done evaluate s) = head (queue s) ∧
  queue (eval_done evaluate s) = tail (queue s) ∧
  started (eval_done evaluate s) = started s ++ take 1 (queue s) ∧
  promises (eval_done evaluate s) =
    promises (settle (promise w) (outcome (evaluate w)) s) ∧
  concurrencyCounter (eval_done evaluate s) =
    (if existsb is_reset (evaluate w) then 0%Z else concurrencyCounter s).
Proof.
  intros Hc Hr. unfold eval_done, waiting, outcome. rewrite Hc, Hr.
  set (st := match r with Resolves v => Fulfilled v | Rejects e => Rejected (ReasonError e) end).
  replace (match r with Resolves v => Fulfilled v | Rejects e => Rejected (ReasonError e) end)
    with st by done.
  set (s0 := set_current None (apply_trace (evaluate w) s)).
  assert (queue s0 = queue s ∧ processing s0 = processing s ∧ started s0 = started s ∧
          promises s0 = promises s ∧
          concurrencyCounter s0 =
            (if existsb is_reset (evaluate w) then 0%Z else concurrencyCounter s))
    as (Hq & Hp & Hs & Hm & Hk).
  { subst s0. unfold apply_trace. by destruct (existsb _ _). }
  assert (promises (settle (promise w) st s0) = promises (settle (promise w) st s)) as Hpm.
  { unfold settle. rewrite Hm. by destruct (promises s !! promise w) as [[| |]|]. }
  assert (concurrencyCounter (settle (promise w) st s0) = concurrencyCounter s0) as Hk'.
  { unfold settle. by repeat case_match. }
  unfold process_loop. rewrite queue_settle, Hq.
  destruct (queue s) as [|next rest]; cbn;
    rewrite ?current_settle, ?queue_settle, ?started_settle, ?processing_settle,
      ?Hq, ?Hp, ?Hs, ?Hpm, ?Hk', ?Hk, ?app_nil_r; done.
Qed.

Lemma eval_done_stuck s :
  (current s = None ∨ ∃ w, current s = Some w ∧ settlement (evaluate w) = None) →
  eval_done evaluate s = s.
Proof.
  unfold eval_done. intros [-> | (w & -> & ->)]; done.
Qed.

(** A promise that is no longer pending keeps its state. *)
Lemma settle_keeps_settled p q st st0 s :
  promises s !! p = Some st0 → st0 ≠ Pending →
  promises (settle q st s) !! p = Some st0.
Proof.
  intros Hp Hst. unfold settle.
  destruct (promises s !! q) as [[| |]|] eqn:Hq; try done.
  cbn. destruct (decide (q = p)) as [->|Hne]; [congruence|].
  by rewrite lookup_insert_ne.
Qed.

Lemma settle_other p q st s :
  p ≠ q → promises (settle q st s) !! p = promises s !! p.
Proof.
  intros Hne. unfold settle.
  destruct (promises s !! q) as [[| |]|]; try done.
  cbn. by rewrite lookup_insert_ne.
Qed.

Lemma settle_pending p st s :
  promises s !! p = Some Pending → promises (settle p st s) !! p = Some st.
Proof.
  intros Hp. unfold settle. rewrite Hp. cbn. by rewrite lookup_insert_eq.
Qed.

Lemma eval_done_keeps_settled s p st0 :
  promises s !! p = Some st0 → st0 ≠ Pending →
  promises (eval_done evaluate s) !! p = Some st0.
Proof.
  intros Hp Hst.
  destruct (current s) as [w|] eqn:Hc; [|by rewrite eval_done_stuck by by left].
  destruct (settlement (evaluate w)) as [r|] eqn:Hr.
  - destruct (eval_done_shape s w r Hc Hr) as (_ & _ & _ & _ & _ & -> & _).
    by apply settle_keeps_settled.
  - rewrite eval_done_stuck; [done|]. right. by exists w.
Qed.

Lemma drain_keeps_settled fuel :
  ∀ s p st0, promises s !! p = Some st0 → st0 ≠ Pending →
             promises (drain evaluate fuel s) !! p = Some st0.
Proof.
  induction fuel as [|n IH]; intros s p st0 Hp Hst; [done|].
  cbn [drain]. destruct (current s); [|done].
  apply IH; [|done]. by apply eval_done_keeps_settled.
Qed.


Lemma queue_inv_initial : queue_inv initial.
Proof.
  unfold queue_inv, waiting. cbn. split; [|split; [done|split; [constructor|]]].
  - split; [done | intros [w Hw]; discriminate Hw].
  - intros w Hw. by apply elem_of_nil in Hw.
Qed.

Lemma queue_inv_add code msg s : queue_inv s → queue_inv (add code msg s).1.
Proof.
  intros (Hbusy & Hidle & Hnd & Hst).
  destruct (add_shape code msg s Hbusy) as (Hp' & Hcur & Hw' & _ & _).
  set (w := {| code := code; msg := msg; promise := (add code msg s).2 |}) in *.
  assert (∀ w0, w0 ∈ waiting s → promise w0 ≠ (add code msg s).2) as Hfresh.
  { intros w0 Hw0 Heq. destruct (Hst w0 Hw0) as [Hl | Hl];
      rewrite Heq, add_fresh in Hl; discriminate Hl. }
  split; [|split; [|split]].
  - done.
  - congruence.
  - rewrite Hw', fmap_app. apply NoDup_app. split; [done|]. split.
    + intros x Hx Hx'. cbn in Hx'. apply list_elem_of_singleton in Hx' as ->.
      apply list_elem_of_fmap in Hx as (w0 & Heq & Hw0). by apply (Hfresh w0).
    + cbn. apply NoDup_singleton.
  - intros w0. rewrite Hw'. intros [Hw0 | Hw0]%elem_of_app.
    + rewrite promises_add_other by by apply Hfresh. by apply Hst.
    + apply list_elem_of_singleton in Hw0 as ->. cbn [promise w].
      rewrite add_promise_state. destruct (20 <? _)%nat; [by right | by left].
Qed.

Lemma queue_inv_eval_done s : queue_inv s → queue_inv (eval_done evaluate s).
Proof.
  intros Hinv.
  destruct (current s) as [w|] eqn:Hc; [|by rewrite eval_done_stuck by by left].
  destruct (settlement (evaluate w)) as [r|] eqn:Hr;
    [|rewrite eval_done_stuck; [done | right; by exists w]].
  destruct Hinv as (Hbusy & Hidle & Hnd & Hst).
  destruct (eval_done_shape s w r Hc Hr) as (Hw' & Hp' & Hc' & Hq' & _ & Hm' & _).
  assert (processing s = true) as Hps by (apply Hbusy; by eexists).
  unfold queue_inv. rewrite Hw', Hp', Hc', Hq', Hm', Hps.
  unfold waiting in Hnd, Hst. rewrite Hc in Hnd, Hst. cbn in Hnd, Hst.
  apply NoDup_cons in Hnd as [Hnotin Hnd].
  split; [|split; [|split]].
  - destruct (queue s); cbn; split; try done; intros [? ?]; done.
  - by destruct (queue s).
  - done.
  - intros w0 Hw0. rewrite settle_other.
    + apply Hst. by right.
    + intros Heq. apply Hnotin. rewrite <- Heq. by apply list_elem_of_fmap_2.
Qed.

Lemma reachable_queue_inv s : reachable evaluate s → queue_inv s.
Proof.
  induction 1 as [|s code msg _ IH | s _ IH].
  - apply queue_inv_initial.
  - by apply queue_inv_add.
  - by apply queue_inv_eval_done.
Qed.

End QueueRunFacts.


Section QueueOrderFacts.
Import Queue.
Variable evaluate : Waiter → list Event.
Hypothesis evaluate_settles : ∀ w, is_Some (settlement (evaluate w)).

Lemma outcome_settled w : outcome (evaluate w) ≠ Pending.
Proof using evaluate_settles.
  unfold outcome. destruct (evaluate_settles w) as [[v|e] ->]; done.
Qed.

Lemma drain_settles (q : list Waiter) :
  ∀ (s : Server) (fuel : nat),
    queue_inv s → is_Some (current s) → queue s = q → (length q < fuel)%nat →
    ∀ w, w ∈ waiting s →
         promises (drain evaluate fuel s) !! promise w =
           Some (match promises s !! promise w with
                 | Some Pending => outcome (evaluate w)
                 | _ => queue_full
                 end).
Proof using evaluate_settles.
  induction q as [|next rest IH]; intros s fuel Hinv [w0 Hc] Hq Hfuel w Hw;
    (destruct fuel as [|n]; [cbn in Hfuel; lia|]);
    cbn [drain]; rewrite Hc;
    destruct (evaluate_settles w0) as [r Hr];
    pose proof (queue_inv_eval_done evaluate s Hinv) as Hinv';
    destruct (eval_done_shape evaluate s w0 r Hc Hr) as (Hw' & _ & Hc' & Hq' & _ & Hm' & _);
    destruct Hinv as (_ & _ & Hnd & Hst);
    pose proof (Hst w Hw) as Hstw;
    unfold waiting in Hw, Hnd; rewrite Hc, Hq in Hw, Hnd; cbn in Hw, Hnd;
    apply NoDup_cons in Hnd as [Hnotin Hnd].
  - apply elem_of_cons in Hw as [-> | Hw]; [|by apply elem_of_nil in Hw].
    destruct Hstw as [Hp | Hp]; rewrite Hp.
    + apply drain_keeps_settled; [|apply outcome_settled].
      rewrite Hm'. by apply settle_pending.
    + apply drain_keeps_settled; [|done].
      rewrite Hm'. by apply settle_keeps_settled.
  - apply elem_of_cons in Hw as [-> | Hw].
    + destruct Hstw as [Hp | Hp]; rewrite Hp.
      * apply drain_keeps_settled; [|apply outcome_settled].
        rewrite Hm'. by apply settle_pending.
      * apply drain_keeps_settled; [|done].
        rewrite Hm'. by apply settle_keeps_settled.
    + assert (promise w ≠ promise w0) as Hne.
      { intros Heq. apply Hnotin. rewrite <- Heq.
        change (promise w ∈ promise <$> (next :: rest)).
        by apply list_elem_of_fmap_2. }
      rewrite (IH (eval_done evaluate s) n Hinv').
      * by rewrite Hm', settle_other.
      * rewrite Hc', Hq. by eexists.
      * by rewrite Hq', Hq.
      * cbn [length] in Hfuel. lia.
      * by rewrite Hw', Hq.
Qed.

(** X1. Waiters are evaluated in the order in which they arrived: in every
    state the server can be in, the evaluations begun so far followed by the
    queue is a list that [add] extends at its end by the new waiter and that
    a finished evaluation leaves as it is; and running the loop until it is
    idle begins the evaluations of the queued waiters in queue order and
    leaves the queue empty and the loop not processing. *)
Theorem waiters_are_evaluated_in_arrival_order (s : Server) (code : JsString)
    (msg : JsValue) (fuel : nat) :
  reachable evaluate s →
  (length (queue s) < fuel)%nat →
  started (add code msg s).1 ++ queue (add code msg s).1 =
    (started s ++ queue s) ++ [ {| code := code; msg := msg; promise := (add code msg s).2 |} ] ∧
  started (eval_done evaluate s) ++ queue (eval_done evaluate s) = started s ++ queue s ∧
  started (drain evaluate fuel s) = started s ++ queue s ∧
  queue (drain evaluate fuel s) = [] ∧
  processing (drain evaluate fuel s) = false.
Proof using evaluate_settles.
  intros Hreach Hfuel.
  pose proof (reachable_queue_inv evaluate s Hreach) as Hinv.
  destruct Hinv as (Hbusy & Hidle & Hnd & Hst).
  split; [|split].
  - destruct (add_shape code msg s Hbusy) as (_ & [w1 Hc1] & Hw' & Hc' & Hs').
    destruct (processing s) eqn:Hp.
    + rewrite Hs', app_nil_r.
      unfold waiting in Hw'. rewrite (Hc' eq_refl) in Hw'.
      rewrite <- app_assoc in Hw'. apply app_inv_head in Hw'. by rewrite Hw', app_assoc.
    + assert (current s = None) as Hn.
      { destruct (current s) eqn:Hcs; [|done].
        assert (false = true) by (apply Hbusy; by eexists). done. }
      unfold waiting in Hw', Hs'. rewrite Hn, (Hidle eq_refl) in Hw'.
      remember (add code msg s).1 as s' eqn:Hs'eq.
      remember {| code := code; msg := msg; promise := (add code msg s).2 |} as wn.
      rewrite Hc1 in Hw', Hs'.
      change (w1 :: queue s' = [wn]) in Hw'.
      injection Hw' as -> Hq1.
      rewrite Hs', Hq1, (Hidle eq_refl), !app_nil_r. done.
  - destruct (current s) as [w|] eqn:Hc; [|by rewrite eval_done_stuck by by left].
    destruct (evaluate_settles w) as [r Hr].
    destruct (eval_done_shape evaluate s w r Hc Hr) as (_ & _ & _ & -> & -> & _).
    rewrite <- app_assoc. f_equal. by destruct (queue s).
  - destruct (current s) as [w|] eqn:Hc.
    + destruct (drain_runs_queue evaluate evaluate_settles (queue s) s fuel)
        as (H1 & H2 & _ & H4 & _); [by eexists | done | done |]. done.
    + rewrite drain_idle by done.
      assert (processing s = false) as Hp.
      { destruct (processing s) eqn:Hp; [|done].
        destruct (proj1 Hbusy eq_refl) as [? ?]. congruence. }
      rewrite (Hidle Hp), app_nil_r. done.
Qed.

(** X5. Every waiter is answered with the result of its own evaluation:
    once the loop has run until it is idle, the promise of each waiter that
    was pending is fulfilled or rejected with what the evaluation of that
    waiter's code delivered, and the promise of a waiter that [add] had
    rejected is still rejected with Queue is full. *)
Theorem each_waiter_is_answered_with_its_own_result (s : Server) (fuel : nat) (w : Waiter) :
  reachable evaluate s →
  (length (queue s) < fuel)%nat →
  w ∈ waiting s →
  (promises s !! promise w = Some Pending →
     promises (drain evaluate fuel s) !! promise w = Some (outcome (evaluate w)) ∧
     outcome (evaluate w) ≠ Pending) ∧
  (promises s !! promise w = Some queue_full →
     promises (drain evaluate fuel s) !! promise w = Some queue_full).
Proof using evaluate_settles.
  intros Hreach Hfuel Hw.
  pose proof (reachable_queue_inv evaluate s Hreach) as Hinv.
  assert (is_Some (current s)) as Hcur.
  { destruct (current s) eqn:Hc; [by eexists|].
    destruct Hinv as (Hbusy & Hidle & _).
    assert (processing s = false) as Hp.
    { destruct (processing s) eqn:Hp; [|done].
      destruct (proj1 Hbusy eq_refl) as [? ?]. congruence. }
    unfold waiting in Hw. rewrite Hc, (Hidle Hp) in Hw. by apply elem_of_nil in Hw. }
  pose proof (drain_settles (queue s) s fuel Hinv Hcur eq_refl Hfuel w Hw) as Hd.
  split; intros Hp; rewrite Hp in Hd; [split; [done | apply outcome_settled] | done].
Qed.

End QueueOrderFacts.

Section QueueStateFacts.
Import Queue.
Variable evaluate : Waiter → list Event.

(** X2. In every state the server can be in, the loop is processing
    exactly when one evaluation is under way, an idle loop has an empty
    queue, no two unanswered waiters share a promise, and the promise of an
    unanswered waiter is either pending or was rejected by [add] with Queue
    is full. *)
Theorem reachable_states_keep_queue_consistent (s : Server) :
  reachable evaluate s →
  (processing s = true ↔ is_Some (current s)) ∧
  (processing s = false → queue s = [] ∧ current s = None) ∧
  NoDup (promise <$> waiting s) ∧
  (∀ w, w ∈ waiting s →
        promises s !! promise w = Some Pending ∨ promises s !! promise w = Some queue_full).
Proof.
  intros Hreach.
  destruct (reachable_queue_inv evaluate s Hreach) as (Hbusy & Hidle & Hnd & Hst).
  split; [done|]. split; [|by split].
  intros Hp. split; [by apply Hidle|].
  destruct (current s) eqn:Hc; [|done].
  assert (processing s = true) by (apply Hbusy; by eexists). congruence.
Qed.

(** X4. The queue has no upper bound: while an evaluation is under way,
    every request is appended to the queue, whether or not its promise was
    rejected as over capacity, so after any number of requests the queue
    holds the old waiters followed by all the new requests in order. *)
Theorem queue_grows_with_every_request (requests : list (JsString * JsValue)) (s : Server) :
  processing s = true →
  request_of <$> queue (add_all requests s) = (request_of <$> queue s) ++ requests ∧
  length (queue (add_all requests s)) = (length (queue s) + length requests)%nat ∧
  current (add_all requests s) = current s.
Proof.
  revert s. unfold add_all.
  induction requests as [|[c m] requests IH]; intros s Hbusy; cbn [foldl].
  - rewrite app_nil_r. split; [done|]. split; [cbn; lia | done].
  - cbn [fst snd].
    assert (processing (add c m s).1 = true ∧ current (add c m s).1 = current s)
      as [Hbusy' Hcur'].
    { unfold add. cbn [fst]. unfold process.
      destruct (20 <? length (queue (set_promises _ s)))%nat;
        cbn [processing set_queue]; rewrite ?processing_settle;
        cbn [processing set_promises]; rewrite Hbusy;
        cbn [processing current set_queue]; rewrite ?processing_settle, ?current_settle;
        done. }
    destruct (IH (add c m s).1 Hbusy') as (H1 & H2 & H3).
    rewrite H1, H2, H3, Hcur', add_queue_busy by done.
    rewrite fmap_app, length_app. cbn. rewrite <- app_assoc.
    split; [done|]. split; [lia | done].
Qed.

End QueueStateFacts.

Lemma sample_evaluate_settles : ∀ w, is_Some (settlement (sample_evaluate w)).
Proof.
  intros w. unfold sample_evaluate.
  rewrite (@Part000_eval_settlement sample_host) by done. by eexists.
Qed.

Lemma reachable_add_many (evaluate : Waiter → list Event) (n : nat) :
  reachable evaluate (add_many n initial).
Proof.
  induction n as [|n IH]; [apply reach_initial|].
  unfold add_many. cbn [Nat.iter]. by apply reach_add.
Qed.

Lemma waiters_are_evaluated_in_arrival_order_witness :
  let s := add_many 3 initial in
  (length (queue s) < 5)%nat ∧
  started (Queue.drain sample_evaluate 5 s) = started s ++ queue s ∧
  queue (Queue.drain sample_evaluate 5 s) = [] ∧
  processing (Queue.drain sample_evaluate 5 s) = false.
Proof.
  intros s.
  assert (length (queue s) < 5)%nat as Hfuel by (vm_compute; lia).
  destruct (waiters_are_evaluated_in_arrival_order sample_evaluate sample_evaluate_settles
              s (lit "1 + 1") JNull 5 (reachable_add_many sample_evaluate 3) Hfuel)
    as (_ & _ & H3 & H4 & H5).
  split; [exact Hfuel|]. split; [exact H3|]. split; [exact H4 | exact H5].
Defined.

Lemma each_waiter_is_answered_with_its_own_result_witness :
  let s := add_many 3 initial in
  let w := {| code := lit "1 + 1"; msg := JNull; promise := 2 |} in
  (length (queue s) < 5)%nat ∧ w ∈ waiting s ∧
  promises s !! promise w = Some Pending ∧
  promises (Queue.drain sample_evaluate 5 s) !! promise w = Some (outcome (sample_evaluate w)).
Proof.
  intros s w.
  assert (length (queue s) < 5)%nat as Hfuel by (vm_compute; lia).
  assert (w ∈ waiting s) as Hw.
  { vm_compute. apply elem_of_cons. right. apply elem_of_cons. right.
    apply elem_of_cons. by left. }
  assert (promises s !! promise w = Some Pending) as Hp by reflexivity.
  destruct (each_waiter_is_answered_with_its_own_result sample_evaluate sample_evaluate_settles
              s 5 w (reachable_add_many sample_evaluate 3) Hfuel Hw) as [H1 _].
  split; [exact Hfuel|]. split; [exact Hw|]. split; [exact Hp|].
  exact (proj1 (H1 Hp)).
Defined.

Lemma reachable_states_keep_queue_consistent_witness :
  let s := Queue.eval_done sample_evaluate (add_many 3 initial) in
  (processing s = true ↔ is_Some (current s)) ∧ NoDup (promise <$> waiting s).
Proof.
  intros s.
  destruct (reachable_states_keep_queue_consistent sample_evaluate s
              (reach_eval_done sample_evaluate _ (reachable_add_many sample_evaluate 3)))
    as (H1 & _ & H3 & _).
  split; [exact H1 | exact H3].
Defined.

Lemma queue_grows_with_every_request_witness :
  let s := add_many 22 initial in
  let requests := [(lit "a", JNull); (lit "b", JNull)] in
  processing s = true ∧
  length (queue (add_all requests s)) = (length (queue s) + length requests)%nat.
Proof.
  intros s requests.
  assert (processing s = true) as Hbusy by reflexivity.
  destruct (queue_grows_with_every_request requests s Hbusy) as (_ & H2 & _).
  split; [exact Hbusy | exact H2].
Defined.

(** ** Trimming of the message *)

Section TrimFacts.
Context `{Host}.

Lemma assoc_filter_eq k fs :
  assoc k (filter (λ kv : JsString * JsValue, kv.1 ≠ k) fs) = None.
Proof.
  induction fs as [|[k0 v0] fs IH]; [done|].
  rewrite filter_cons. cbn [fst]. destruct (decide (k0 ≠ k)) as [Hk|Hk]; [|done].
  cbn [assoc]. by rewrite bool_decide_eq_false_2.
Qed.

Lemma get_delete_key_eq k v : get k (delete_key k v) = JUndefined.
Proof. destruct v; try done. cbn [delete_key get]. by rewrite assoc_filter_eq. Qed.

Lemma get_within_same k f v :
  f JUndefined = JUndefined → get k (within k f v) = f (get k v).
Proof.
  intros Hf. destruct v; try done. cbn [within get].
  rewrite assoc_fmap_within, bool_decide_eq_true_2 by done.
  by destruct (assoc (lit k) fields).
Qed.

Lemma get_channel_trim msg :
  get "channel" (trim msg) =
    delete_key "blocks"
      (delete_key "commands"
         (within "data" (delete_key "command_stats") (get "channel" msg))).
Proof.
  unfold trim. rewrite get_within_same by done.
  rewrite get_within_ne by discriminate.
  rewrite get_within_same by done. by rewrite get_within_same by done.
Qed.

Lemma get_command_trim msg :
  get "command" (trim msg) = delete_key "description" (get "command" msg).
Proof.
  unfold trim. rewrite get_within_ne by discriminate.
  rewrite get_within_same by done. by rewrite !get_within_ne by discriminate.
Qed.

(** X10. The four [delete] statements of [eval] remove exactly four paths
    of the message: after them channel.commands, channel.blocks,
    channel.data.command_stats and command.description read as undefined,
    and every other field of the message, of its channel, of the channel's
    data and of its command reads as before. The text of the message bound
    in the guest is computed from the trimmed message. *)
Theorem trim_removes_exactly_four_paths (msg : JsValue) (k : string)
    (indent : nat) (code : JsString) :
  (get "commands" (get "channel" (trim msg)) = JUndefined ∧
   get "blocks" (get "channel" (trim msg)) = JUndefined ∧
   get "command_stats" (get "data" (get "channel" (trim msg))) = JUndefined ∧
   get "description" (get "command" (trim msg)) = JUndefined) ∧
  (lit k ≠ lit "channel" → lit k ≠ lit "command" → get k (trim msg) = get k msg) ∧
  (lit k ≠ lit "commands" → lit k ≠ lit "blocks" → lit k ≠ lit "data" →
     get k (get "channel" (trim msg)) = get k (get "channel" msg)) ∧
  (lit k ≠ lit "command_stats" →
     get k (get "data" (get "channel" (trim msg)))
       = get k (get "data" (get "channel" msg))) ∧
  (lit k ≠ lit "description" →
     get k (get "command" (trim msg)) = get k (get "command" msg)) ∧
  script indent code msg =
    (Shaper.shape
       (Shaper.prelude indent (JSON_stringify (JString (JSON_stringify (trim msg))))) code).2.
Proof.
  rewrite get_channel_trim, get_command_trim.
  split; [split; [|split; [|split]]|split; [|split; [|split; [|split; [|done]]]]].
  - rewrite get_delete_key_ne by discriminate. apply get_delete_key_eq.
  - apply get_delete_key_eq.
  - rewrite !get_delete_key_ne by discriminate.
    rewrite get_within_same by done. apply get_delete_key_eq.
  - apply get_delete_key_eq.
  - intros H1 H2. by apply get_trim_other.
  - intros H1 H2 H3. rewrite !get_delete_key_ne by done. by rewrite get_within_ne.
  - intros H1. rewrite !get_delete_key_ne by discriminate.
    rewrite get_within_same by done. by rewrite get_delete_key_ne.
  - intros H1. by rewrite get_delete_key_ne.
Qed.

(** X11. The context forwarded on outbound requests (second file) takes
    the fields that the message carries: [user] as it is, [channel] as the
    trimmed channel (without commands, blocks and data.command_stats), a
    string [id] as it is, and [timestamp] and [platform] as given whenever
    they are neither undefined nor null; [isSilent] is the truth value of
    command.silent. *)
Theorem potatData_forwards_present_fields (msg : JsValue) (now : Z) (i : JsString) :
  let pd := Part000.eval_potatData msg now in
  user pd = get "user" msg ∧
  channel pd =
    delete_key "blocks"
      (delete_key "commands"
         (within "data" (delete_key "command_stats") (get "channel" msg))) ∧
  get "commands" (channel pd) = JUndefined ∧
  get "blocks" (channel pd) = JUndefined ∧
  (get "id" msg = JString i → id pd = i) ∧
  (nullish (get "timestamp" msg) = false → timestamp pd = get "timestamp" msg) ∧
  (nullish (get "platform" msg) = false → platform pd = get "platform" msg) ∧
  isSilent pd = truthy (get "silent" (get "command" msg)).
Proof.
  cbn zeta. unfold Part000.eval_potatData, potatData.
  cbn [user channel id timestamp platform isSilent].
  rewrite (get_trim_other "user"), (get_trim_other "id"), (get_trim_other "timestamp"),
    (get_trim_other "platform") by discriminate.
  rewrite get_silent_trim, get_channel_trim.
  split; [done|]. split; [done|].
  split; [rewrite get_delete_key_ne by discriminate; apply get_delete_key_eq|].
  split; [apply get_delete_key_eq|].
  split; [intros ->; done|].
  split; [intros Hn; unfold coalesce; by rewrite Hn|].
  split; [intros Hn; unfold coalesce; by rewrite Hn|done].
Qed.

End TrimFacts.

(** ** The address guard, hook by hook *)

Section GuardHookFacts.
Context `{Host}.

Lemma bridge_round_trip (s : Server) : resume (decrement (suspend (increment s))) = s.
Proof.
  destruct s. unfold resume, decrement, suspend, increment,
    set_pending, set_counter. cbn.
  f_equal. lia.
Qed.

Lemma check_addresses_first (l : list (JsString + LookupAddress)) :
  let value := λ x : JsString + LookupAddress,
                 match x with inl str => str | inr la => address la end in
  match Part000Bridge.check_addresses l with
  | Return _ => Forall (λ a, isPrivate a = false) (value <$> l)
  | Throw e =>
      ∃ pre a post, value <$> l = pre ++ a :: post ∧
                    Forall (λ a, isPrivate a = false) pre ∧
                    isPrivate a = true ∧ e = blocked_error a
  end.
Proof.
  cbn zeta. induction l as [|x l IH]; [by constructor|].
  cbn [Part000Bridge.check_addresses]. unfold Part000Bridge.throwIfPrivateIP.
  destruct (isPrivate _) eqn:Hp.
  - eexists [], _, _. split; [reflexivity|]. split; [constructor|]. by split.
  - destruct (Part000Bridge.check_addresses l) as [[]|e].
    + rewrite fmap_cons. by constructor.
    + destruct IH as (pre & a & post & Heq & Hpre & Ha & ->).
      eexists (_ :: pre), a, post. rewrite fmap_cons, Heq.
      split; [reflexivity|]. split; [by constructor | by split].
Qed.

Lemma answers_values (addr : Addr) :
  (λ x : JsString + LookupAddress, match x with inl str => str | inr la => address la end)
    <$> match addr with Many l => inr <$> l | Single a => [inl a] end
  = answers addr.
Proof.
  destruct addr as [a | l]; [done|]. cbn [answers].
  rewrite <- list_fmap_compose. by apply list_fmap_ext.
Qed.

(** X12. [dnsLookup] never alters an answer: an error of the resolver is
    passed to the callback as it is; an answer is passed on unchanged, with
    its family, exactly when none of its addresses is private; otherwise
    the callback gets an error that names the first private address in the
    order of the answer, and no address at all. *)
Theorem dnsLookup_passes_only_public_answers (addr : Addr) (fam : option Z) (err : JsError) :
  Part000Bridge.dnsLookup (LookupError err) = LookupError err ∧
  (Part000Bridge.dnsLookup (LookupFound addr fam) = LookupFound addr fam ↔
     Forall (λ a, isPrivate a = false) (answers addr)) ∧
  (∀ addr' fam', Part000Bridge.dnsLookup (LookupFound addr fam) = LookupFound addr' fam' →
                 addr' = addr ∧ fam' = fam) ∧
  (∀ e, Part000Bridge.dnsLookup (LookupFound addr fam) = LookupError e →
        ∃ pre a post,
          answers addr = pre ++ a :: post ∧
          Forall (λ a, isPrivate a = false) pre ∧
          isPrivate a = true ∧
          e = Error_ (lit "Access to " ++ a ++ lit " is disallowed")).
Proof.
  split; [done|]. unfold Part000Bridge.dnsLookup.
  pose proof (check_addresses_first
                match addr with Many l => inr <$> l | Single a => [inl a] end) as Hc.
  cbn zeta in Hc. rewrite answers_values in Hc.
  destruct (Part000Bridge.check_addresses _) as [[]|e0].
  - split; [done|]. split; [intros ? ? [= <- <-]; done | done].
  - destruct Hc as (pre & a & post & Heq & Hpre & Ha & ->).
    split; [|split; [done|]].
    + split; [done|]. intros Hall. rewrite Heq in Hall.
      apply Forall_app in Hall as [_ Hall]. apply Forall_cons in Hall as [Hpub _].
      congruence.
    + intros e [= <-]. by exists pre, a, post.
Qed.

(** X14. In the second file, a guest fetch made under the concurrency cap
    whose URL has as host name of its origin a text that [ip.isV4Format] or
    [ip.isV6Format] recognises and that [ip.isPrivate] holds private, is
    refused before any lookup or connection: the guest gets status 400
    with the text of the refusal, no network event happens, and the server
    state is exactly what it was before the call. Host names that neither
    format test recognises are outside this statement; the bracketed form
    in which a URL carries an IPv6 literal is one that [ip.isV6Format]
    does not recognise. *)
Theorem Part000_fetch_refuses_private_literal (max : Z) (net : Part000Bridge.Network)
    (pd : EvalPotatData) (url : JsString) (options : option Options) (s : Server)
    (u u' : URL) :
  (concurrencyCounter s + 1 ≤ max)%Z →
  URL_parse url = Some u →
  URL_parse (origin u) = Some u' →
  isV4Format (hostname u') || isV6Format (hostname u') = true →
  isPrivate (hostname u') = true →
  Part000Bridge.fetchImplement max net pd url options s =
    (s, [],
     Return {| body := Text (lit "Request failed - TypeError: Error: Access to "
                               ++ hostname u' ++ lit " is disallowed");
               status := 400 |}).
Proof.
  intros Hcap Hu Hu' Hf Hp.
  unfold Part000Bridge.fetchImplement, Part000Bridge.fetchImplement_begin.
  cbn [increment concurrencyCounter set_counter].
  destruct (Z.ltb_spec max (concurrencyCounter s + 1)); [lia|].
  unfold Part000Bridge.fetch. cbn [req_url]. rewrite Hu.
  unfold Part000Bridge.dispatcherFactory, Part000Bridge.throwIfPrivateIP.
  rewrite Hu', Hf, Hp.
  cbn [Part000Bridge.fetchImplement_end]. unfold Part000Bridge.catch_handler.
  rewrite bool_decide_eq_false_2 by discriminate.
  fold (increment s). rewrite bridge_round_trip. reflexivity.
Qed.

(** X15. The callback of the lookup in [index.ts] reports at most one
    error to the handler: nothing when every address is public, and
    otherwise only the first private address in the order of the answer; an
    error of the resolver is reported to the handler and then thrown out of
    the callback. *)
Theorem IndexTs_lookup_callback_reports_first_private (addresses : list LookupAddress)
    (err : JsError) :
  (length (IndexTsBridge.callback_loop addresses) ≤ 1)%nat ∧
  (IndexTsBridge.callback_loop addresses = [] ↔
     Forall (λ a, isPrivate a = false) (address <$> addresses)) ∧
  (IndexTsBridge.callback_loop addresses ≠ [] →
     ∃ pre a post,
       address <$> addresses = pre ++ a :: post ∧
       Forall (λ a, isPrivate a = false) pre ∧
       isPrivate a = true ∧
       IndexTsBridge.callback_loop addresses =
         [IndexTsBridge.HandlerOnError
            (Error_ (lit "Access to " ++ a ++ lit " is disallowed"))]) ∧
  IndexTsBridge.lookup_callback (inl err) =
    [IndexTsBridge.HandlerOnError err; IndexTsBridge.UncaughtThrow err].
Proof.
  split; [|split; [|split; [|done]]].
  - induction addresses as [|a r IH]; cbn; [lia|].
    destruct (isPrivate (address a)); [cbn; lia | done].
  - induction addresses as [|a r IH]; cbn [IndexTsBridge.callback_loop].
    + split; [constructor | done].
    + rewrite fmap_cons. destruct (isPrivate (address a)) eqn:Hp.
      * split; [done|]. intros Hall. apply Forall_cons in Hall as [Hpub _]. congruence.
      * rewrite IH. split; [by constructor | by intros [_ ?]%Forall_cons].
  - induction addresses as [|a r IH]; cbn [IndexTsBridge.callback_loop]; [done|].
    destruct (isPrivate (address a)) eqn:Hp.
    + intros _. eexists [], _, _. rewrite fmap_cons.
      split; [reflexivity|]. split; [constructor|]. by split.
    + intros Hne. destruct (IH Hne) as (pre & b & post & Heq & Hpre & Hb & Hcb).
      eexists (_ :: pre), b, post. rewrite fmap_cons, Heq.
      split; [reflexivity|]. split; [by constructor | by split].
Qed.

End GuardHookFacts.

Lemma Part000_fetch_refuses_private_literal_witness :
  let net := {| Part000Bridge.resolve := λ _, None;
                Part000Bridge.exchange := λ _, Some (Response 200 (lit "secret")) |} in
  let pd := @potatData sample_host JNull 0 in
  @Part000Bridge.fetchImplement sample_host 5 net pd (lit "127.0.0.1") None initial =
    (initial, [],
     Return {| body := Text (lit "Request failed - TypeError: Error: Access to 127.0.0.1 is disallowed");
               status := 400 |}).
Proof.
  intros net pd.
  apply (@Part000_fetch_refuses_private_literal sample_host 5 net pd (lit "127.0.0.1") None
           initial {| origin := lit "127.0.0.1"; hostname := lit "127.0.0.1" |}
           {| origin := lit "127.0.0.1"; hostname := lit "127.0.0.1" |}).
  - vm_compute. discriminate.
  - reflexivity.
  - reflexivity.
  - reflexivity.
  - reflexivity.
Defined.

(** ** The concurrency cap *)

Section CapFacts.
Context `{Host}.
Variable file : Counter.SourceFile.
Variable max : Z.

Lemma pending_at_most_max acts :
  ∀ s s', concurrencyCounter s = Z.of_nat (pending_fetches s) →
          (Z.of_nat (pending_fetches s) ≤ max)%Z →
          Counter.quiet_ends file max acts s →
          Counter.run_actions file max acts s = Some s' →
          concurrencyCounter s' = Z.of_nat (pending_fetches s') ∧
          (Z.of_nat (pending_fetches s') ≤ max)%Z.
Proof.
  induction acts as [|a acts IH]; intros s s' Hinv Hmax Hquiet Hrun; cbn in Hrun.
  - by injection Hrun as <-.
  - cbn in Hquiet. destruct Hquiet as [Hq Hrest].
    destruct (Counter.act file max a s) as [s1|] eqn:Hact; [|done].
    apply (IH s1 s'); try done;
      destruct a as [pd url options | r | run code msg]; cbn in Hact.
    + injection Hact as <-.
      destruct (bridge_begin_counter file max pd url options s)
        as [(_ & -> & ->) | (_ & _ & -> & ->)]; lia.
    + destruct (pending_fetches s) as [|n] eqn:Hp; [done|]. injection Hact as <-.
      destruct (bridge_end_counter file r s) as [-> ->]. rewrite Hp. cbn. lia.
    + injection Hact as <-. specialize (Hq eq_refl).
      destruct (apply_trace_counter (Counter.eval_trace file run code msg) s)
        as [-> [-> | ->]]; lia.
    + injection Hact as <-.
      destruct (bridge_begin_counter file max pd url options s)
        as [(_ & _ & ->) | (_ & Hle & _ & ->)]; lia.
    + destruct (pending_fetches s) as [|n] eqn:Hp; [done|]. injection Hact as <-.
      destruct (bridge_end_counter file r s) as [_ ->]. rewrite Hp. cbn. lia.
    + injection Hact as <-.
      destruct (apply_trace_counter (Counter.eval_trace file run code msg) s) as [-> _].
      done.
Qed.

(** X16. The cap bounds the outbound requests in flight: in both files,
    as long as every evaluation ends with no bridge call still suspended,
    the number of suspended bridge calls never exceeds [maxConcurrency],
    whatever the guest calls and whatever the remote servers answer. *)
Theorem suspended_calls_never_exceed_cap (acts : list Counter.Action) (s' : Server) :
  (0 ≤ max)%Z →
  Counter.quiet_ends file max acts initial →
  Counter.run_actions file max acts initial = Some s' →
  (Z.of_nat (pending_fetches s') ≤ max)%Z.
Proof.
  intros Hmax Hquiet Hrun.
  by destruct (pending_at_most_max acts initial s' eq_refl Hmax Hquiet Hrun).
Qed.

End CapFacts.

Lemma suspended_calls_never_exceed_cap_witness :
  let pd := @potatData sample_host JNull 0 in
  let call := Counter.FetchCall pd (lit "http://example.test/") None in
  let acts := [call; call; call] in
  ∃ s', @Counter.run_actions sample_host Counter.part_000 2 acts initial = Some s' ∧
        (Z.of_nat (pending_fetches s') ≤ 2)%Z.
Proof.
  intros pd call acts. eexists. split; [reflexivity|].
  apply (@suspended_calls_never_exceed_cap sample_host Counter.part_000 2 acts).
  - lia.
  - cbn. repeat split; discriminate.
  - reflexivity.
Defined.

(** ** Authentication at the route *)

Section AuthRouteFacts.
Import Auth.

Lemma replace_first_prefix (pat rep t : JsString) :
  replace_first pat rep (pat ++ t) = rep ++ t.
Proof.
  destruct (pat ++ t) as [|c r] eqn:Heq; cbn [replace_first].
  - assert (starts_with pat [] = true) as -> by (apply starts_with_spec; by exists t).
    apply app_eq_nil in Heq as [-> ->]. done.
  - assert (starts_with pat (c :: r) = true) as -> by (apply starts_with_spec; by exists t).
    rewrite <- Heq. by rewrite drop_app_length.
Qed.

Lemma replace_first_absent (pat rep s : JsString) :
  includes pat s = false → replace_first pat rep s = s.
Proof.
  induction s as [|c s IH]; cbn [includes replace_first];
    intros [-> Hr]%orb_false_iff; [done|]. by rewrite IH.
Qed.

(** X17. The header is used as follows. A header that starts with the
    text Bearer followed by a space gives the rest as the token; a header
    in which that text does not occur is taken whole as the token. The
    configured secret sent as a Bearer token always passes. A request
    without the header is rejected with 418 whenever the first byte of the
    secret is not zero. A rejected request never reaches the queue: the
    server state is unchanged and the reply is the 418 envelope; a request
    that passes is handed to [add]. *)
Theorem authenticate_reads_bearer_token (auth t header code : JsString)
    (authorization : option JsString) (msg : JsValue) (s : Server) :
  provided_token (Some (lit "Bearer " ++ t)) = Some t ∧
  (includes (lit "Bearer ") header = false → provided_token (Some header) = Some header) ∧
  authenticate auth (Some (lit "Bearer " ++ auth)) = Next ∧
  (∀ b bs, utf8 auth = b :: bs → b ≠ 0 → authenticate auth None = Send 418%Z rejection) ∧
  (authenticate auth authorization ≠ Next →
     Route.post_eval auth authorization code msg s = (s, inl (418%Z, rejection))) ∧
  (authenticate auth authorization = Next →
     Route.post_eval auth authorization code msg s =
       ((Queue.add code msg s).1, inr (Queue.add code msg s).2)).
Proof.
  split; [|split; [|split; [|split; [|split]]]].
  - unfold provided_token. cbn [fmap option_fmap option_map].
    by rewrite replace_first_prefix.
  - intros Hn. unfold provided_token. cbn [fmap option_fmap option_map].
    by rewrite replace_first_absent.
  - rewrite authenticate_cases. unfold provided_token, bytes_of.
    cbn [fmap option_fmap option_map default]. rewrite replace_first_prefix.
    by rewrite bool_decide_eq_true_2.
  - intros b bs Hb Hne. rewrite authenticate_cases. unfold provided_token, bytes_of.
    cbn [fmap option_fmap option_map default].
    rewrite bool_decide_eq_false_2; [done|].
    intros Heq. apply (f_equal (λ l, l !! 0%nat)) in Heq.
    rewrite !lookup_fill_bytes in Heq by lia. rewrite Hb in Heq.
    rewrite Nat.Div0.mod_0_l in Heq. cbn in Heq. congruence.
  - intros Hne. unfold Route.post_eval.
    rewrite authenticate_cases in *. by case_bool_decide.
  - intros Heq. unfold Route.post_eval. rewrite Heq. by destruct (Queue.add code msg s).
Qed.

End AuthRouteFacts.

(** ** Escaping *)

(** X19. The escaping of the expression form works unit by unit: the
    escape of a concatenation is the concatenation of the escapes, code
    without backslash, double quote and single quote is embedded as it is,
    and the escaped text is longer than the code by the number of those
    three characters in it. *)
Theorem escape_quotes_unit_by_unit (a b code : JsString) :
  Shaper.escape_quotes (a ++ b) = Shaper.escape_quotes a ++ Shaper.escape_quotes b ∧
  (Forall (λ c, c ∉ [92; 34; 39]) code → Shaper.escape_quotes code = code) ∧
  length (Shaper.escape_quotes code) =
    Nat.add (length code) (length (filter (λ c, c ∈ [92; 34; 39]) code)).
Proof.
  split; [|split].
  - induction a as [|c a IH]; [done|].
    cbn [app Shaper.escape_quotes]. rewrite IH. by destruct (Shaper.in_class c).
  - induction 1 as [|c r Hc _ IH]; [done|].
    cbn [Shaper.escape_quotes]. rewrite in_class_spec, bool_decide_eq_false_2 by done.
    by rewrite IH.
  - induction code as [|c r IH]; [done|].
    cbn [Shaper.escape_quotes]. rewrite in_class_spec, filter_cons.
    case_bool_decide as Hc.
    + rewrite decide_True by done. cbn [length]. rewrite IH. lia.
    + rewrite decide_False by done. cbn [length]. rewrite IH. lia.
Qed.

Section IdleFacts.
Import Queue.
Variable evaluate : Waiter → list Event.

(** X21. A request never waits behind an idle loop: after every [add] an
    evaluation is under way, and when [add] finds the server idle it is the
    evaluation of the new waiter itself, which starts in the same turn with
    the queue left empty and the promise pending. *)
Theorem add_starts_evaluation_at_once (s : Server) (code : JsString) (msg : JsValue) :
  reachable evaluate s →
  let w := {| code := code; msg := msg; promise := (add code msg s).2 |} in
  processing (add code msg s).1 = true ∧
  is_Some (current (add code msg s).1) ∧
  (processing s = false →
     current (add code msg s).1 = Some w ∧
     queue (add code msg s).1 = [] ∧
     started (add code msg s).1 = started s ++ [w] ∧
     promises (add code msg s).1 !! promise w = Some Pending).
Proof.
  intros Hreach w.
  destruct (reachable_queue_inv evaluate s Hreach) as (Hbusy & Hidle & _ & _).
  destruct (add_shape code msg s Hbusy) as (Hp & [w1 Hc1] & Hw & _ & Hs).
  split; [done|]. split; [by eexists|]. intros Hfalse.
  assert (current s = None) as Hn.
  { destruct (current s) eqn:Hcs; [|done].
    assert (processing s = true) by (apply Hbusy; by eexists). congruence. }
  unfold waiting in Hw, Hs. rewrite Hn, (Hidle Hfalse), Hc1 in Hw.
  rewrite Hc1, Hfalse in Hs.
  change (w1 :: queue (add code msg s).1 = [w]) in Hw.
  injection Hw as -> Hq.
  split; [done|]. split; [done|]. split; [by rewrite Hs|].
  subst w. cbn [promise]. rewrite add_promise_state, (Hidle Hfalse). done.
Qed.

End IdleFacts.

Lemma add_starts_evaluation_at_once_witness :
  let s := Queue.drain sample_evaluate 5 (add_many 2 initial) in
  processing s = false ∧
  processing (Queue.add (lit "1 + 1") JNull s).1 = true ∧
  queue (Queue.add (lit "1 + 1") JNull s).1 = [].
Proof.
  intros s.
  assert (reachable sample_evaluate s) as Hreach.
  { subst s. cbn [Queue.drain].
    replace (current (add_many 2 initial)) with
      (Some {| code := lit "1 + 1"; msg := JNull; promise := 0 |}) by reflexivity.
    replace (current (Queue.eval_done sample_evaluate (add_many 2 initial))) with
      (Some {| code := lit "1 + 1"; msg := JNull; promise := 1 |}) by reflexivity.
    replace (current (Queue.eval_done sample_evaluate
                        (Queue.eval_done sample_evaluate (add_many 2 initial))))
      with (@None Waiter) by reflexivity.
    do 2 apply reach_eval_done. apply reachable_add_many. }
  assert (processing s = false) as Hidle by reflexivity.
  destruct (add_starts_evaluation_at_once sample_evaluate s (lit "1 + 1") JNull Hreach)
    as (H1 & _ & H3).
  split; [exact Hidle|]. split; [exact H1|]. exact (proj1 (proj2 (H3 Hidle))).
Defined.

Section NeverConnectFacts.
Context `{Host}.

(** X18. The second file never opens a connection for a host name with a
    private address among its answers: for a call under the cap whose host
    is a name, whatever [dispatcherFactory] decides and whatever public
    addresses the answer also holds, no connection event happens, the guest
    gets status 400, and the server state after the call is what it was
    before. *)
Theorem Part000_fetch_never_connects_on_private_answer (max : Z)
    (net : Part000Bridge.Network) (pd : EvalPotatData) (url : JsString)
    (options : option Options) (s : Server) (u : URL) (addr : Addr) (fam : option Z) :
  (concurrencyCounter s + 1 ≤ max)%Z →
  URL_parse url = Some u →
  net_isIP (hostname u) = false →
  Part000Bridge.resolve net (hostname u) = Some (LookupFound addr fam) →
  Exists (λ a, isPrivate a = true) (answers addr) →
  (Part000Bridge.fetchImplement max net pd url options s).1.1 = s ∧
  (∀ h, Part000Bridge.Connect h ∉ (Part000Bridge.fetchImplement max net pd url options s).1.2) ∧
  ∃ b, (Part000Bridge.fetchImplement max net pd url options s).2
       = Return {| body := b; status := 400 |}.
Proof.
  intros Hcap Hu Hip Hres Hex.
  destruct (dnsLookup_guard addr fam) as [Hguard _].
  destruct (Hguard Hex) as (a & Ha & Hdns).
  unfold Part000Bridge.fetchImplement, Part000Bridge.fetchImplement_begin.
  cbn [increment concurrencyCounter set_counter].
  destruct (Z.ltb_spec max (concurrencyCounter s + 1)); [lia|].
  unfold Part000Bridge.fetch. cbn [req_url]. rewrite Hu.
  fold (increment s).
  destruct (Part000Bridge.dispatcherFactory (origin u)) as [[]|e].
  - rewrite Hip, Hres, Hdns. cbn [Part000Bridge.fetchImplement_end fst snd].
    rewrite bridge_round_trip. split; [done|]. split.
    + intros h [Hh | Hh%elem_of_nil]%elem_of_cons; done.
    + unfold Part000Bridge.catch_handler.
      rewrite bool_decide_eq_false_2 by discriminate. by eexists.
  - cbn [Part000Bridge.fetchImplement_end fst snd].
    rewrite bridge_round_trip. split; [done|]. split.
    + intros h Hh%elem_of_nil. done.
    + unfold Part000Bridge.catch_handler.
      rewrite bool_decide_eq_false_2 by discriminate. by eexists.
Qed.

End NeverConnectFacts.

Lemma Part000_fetch_never_connects_on_private_answer_witness :
  let net := {| Part000Bridge.resolve := λ _, Some (LookupFound
                   (Many [ {| address := lit "93.184.216.34"; family := 4 |};
                           {| address := lit "10.0.0.1"; family := 4 |} ]) None);
                Part000Bridge.exchange := λ _, Some (Response 200 (lit "ok")) |} in
  let pd := @potatData sample_host JNull 0 in
  (@Part000Bridge.fetchImplement sample_host 5 net pd (lit "rebind.test") None initial).1.1
    = initial ∧
  ∃ b, (@Part000Bridge.fetchImplement sample_host 5 net pd (lit "rebind.test") None initial).2
       = Return {| body := b; status := 400 |}.
Proof.
  intros net pd.
  destruct (@Part000_fetch_never_connects_on_private_answer sample_host 5 net pd
              (lit "rebind.test") None initial
              {| origin := lit "rebind.test"; hostname := lit "rebind.test" |}
              (Many [ {| address := lit "93.184.216.34"; family := 4 |};
                      {| address := lit "10.0.0.1"; family := 4 |} ]) None)
    as (H1 & _ & H3).
  - vm_compute. discriminate.
  - reflexivity.
  - reflexivity.
  - reflexivity.
  - right. left. reflexivity.
  - split; [exact H1 | exact H3].
Defined.
